(** * The Astro controller (pkg/controllers/astro_controller.go)

    A shallow embedding of the reconciliation loop of the Astro
    controller: the watch handlers that feed the work queue, the worker
    step that drains it, the per-key [syncHandler] with its three
    branches, and the [Run] driver.

    The controller talks to four collaborators through interfaces (the
    rate limited work queue, the informer's lister, the typed clientset
    and the stop channel).  Their implementations are not part of the
    controller, so they are taken as a type class [Collaborators] over
    an abstract environment; every call on one of them is also recorded
    in a trace, in program order. *)

From Stdlib Require Import ZArith Lia Ascii String.
From stdpp Require Import base list strings.

Local Open Scope Z_scope.
Local Open Scope nat_scope.

(** ** Data *)

(** [const AstroFinalizer] *)
Definition AstroFinalizer : string := "astros.astertower.kasterism.io".

(** [metav1.Time]: an instant, as seconds and nanoseconds since the zero
    instant of [time.Time]. *)
Record Time : Type := mkTime { seconds : Z; nanos : Z }.

(** [IsZero] on a pointer to [metav1.Time]: a nil pointer and the zero
    instant are both zero. *)
Definition Time_IsZero (t : option Time) : bool :=
  match t with
  | None => true
  | Some t => (seconds t =? 0)%Z && (nanos t =? 0)%Z
  end.

(** The fields of [v1alpha1.Astro] (its [ObjectMeta]) that the controller
    reads or writes. *)
Record Astro : Type := mkAstro {
  Namespace : string;
  Name : string;
  ResourceVersion : string;
  Finalizers : list string;
  DeletionTimestamp : option Time
}.

Definition set_Finalizers (fs : list string) (a : Astro) : Astro :=
  {| Namespace := Namespace a;
     Name := Name a;
     ResourceVersion := ResourceVersion a;
     Finalizers := fs;
     DeletionTimestamp := DeletionTimestamp a |}.

(** Go [error] values, as far as the controller tells them apart:
    [errors.IsNotFound] looks at the reason of an API status error. *)
Inductive StatusReason : Type :=
| NotFound
| Conflict
| InternalError.

Inductive error : Type :=
| StatusError (reason : StatusReason) (msg : string)
| Errorf (msg : string).

Definition IsNotFound (e : error) : bool :=
  match e with
  | StatusError NotFound _ => true
  | _ => false
  end.

(** [err.Error()] *)
Definition Error (e : error) : string :=
  match e with
  | StatusError _ msg => msg
  | Errorf msg => msg
  end.

(** What travels through the work queue as [interface{}]: a string key,
    or anything else (kept as its [%#v] rendering). *)
Inductive Item : Type :=
| ItemString (key : string)
| ItemOther (gosyntax : string).

(** What a watch notification carries as [interface{}]. *)
Inductive Obj : Type :=
| ObjAstro (a : Astro)
| ObjDeletedFinalStateUnknown (key : string)
| ObjExplicitKey (key : string)
| ObjOther (gosyntax : string).

(** ** Key functions of client-go's cache package

    The controller calls three functions of [k8s.io/client-go/tools/cache];
    they are pure and are written out here after the library. *)
Module cache.

(** [strings.Split(key, "/")] *)
Fixpoint split_slash (s : string) : list string :=
  match s with
  | EmptyString => [EmptyString]
  | String c rest =>
      if Ascii.eqb c "/"%char then EmptyString :: split_slash rest
      else match split_slash rest with
           | p :: ps => String c p :: ps
           | [] => [String c EmptyString]
           end
  end.

(** One part is a name, two parts are namespace and name, anything else
    is an error; on error both strings are empty. *)
Definition SplitMetaNamespaceKey (key : string)
  : string * string * option error :=
  match split_slash key with
  | [name] => (EmptyString, name, None)
  | [namespace; name] => (namespace, name, None)
  | _ => (EmptyString, EmptyString,
          Some (Errorf ("unexpected key format: " +:+ key)))
  end.

(** [<namespace>/<name>], or [<name>] when the namespace is empty. *)
Definition MetaNamespaceKeyFunc (obj : Obj) : string * option error :=
  match obj with
  | ObjExplicitKey key => (key, None)
  | ObjAstro a =>
      if (0 <? String.length (Namespace a))
      then (Namespace a +:+ "/" +:+ Name a, None)
      else (Name a, None)
  | ObjDeletedFinalStateUnknown _ =>
      (EmptyString, Some (Errorf "object has no meta: object does not implement the Object interfaces"))
  | ObjOther _ =>
      (EmptyString, Some (Errorf "object has no meta: object does not implement the Object interfaces"))
  end.

Definition DeletionHandlingMetaNamespaceKeyFunc (obj : Obj)
  : string * option error :=
  match obj with
  | ObjDeletedFinalStateUnknown key => (key, None)
  | _ => MetaNamespaceKeyFunc obj
  end.

End cache.

(** ** Effects *)

(** Calls on the collaborators and on the logging helpers, in the order
    the controller makes them. *)
Inductive Event : Type :=
| QAdd (item : Item)
| QAddRateLimited (item : Item)
| QGet
| QDone (item : Item)
| QForget (item : Item)
| QShutDown
| QShuttingDown
| ListerGet (namespace name : string)
| ClientUpdate (namespace : string) (astro : Astro)
| WaitForCacheSync
| GoWorker
| RecvStop
| HandleError (msg : string)
| Info (msg : string).

(** Run-time panics that the controller's own statements can raise. *)
Inductive Panic : Type :=
| IndexOutOfRange (index : Z) (len : nat)
| TypeAssertion (gosyntax : string).

(** How a call ends: it returns, it panics, or it waits forever on a
    blocking operation. *)
Inductive Outcome (A : Type) : Type :=
| Returns (a : A)
| Panics (p : Panic)
| Blocks.
Arguments Returns {A} a.
Arguments Panics {A} p.
Arguments Blocks {A}.

(** The collaborators.  A blocking operation answers [None] when it never
    comes back. *)
Class Collaborators (Env : Type) : Type := {
  (** [workqueue.Get()]: the item and the shutdown flag *)
  workqueue_Get : Env -> option (Item * bool) * Env;
  workqueue_Done : Item -> Env -> Env;
  workqueue_Forget : Item -> Env -> Env;
  workqueue_AddRateLimited : Item -> Env -> Env;
  (** [workqueue.ShuttingDown()] only reports a flag *)
  workqueue_ShuttingDown : Env -> bool * Env;
  (** [astroInformer.Lister().Astros(namespace).Get(name)] *)
  lister_Get : string -> string -> Env -> (Astro + error) * Env;
  (** [astroClientset.AstertowerV1alpha1().Astros(namespace).Update]; only
      the error is used by the controller *)
  astros_Update : string -> Astro -> Env -> option error * Env;
  (** [cache.WaitForCacheSync(stopCh, HasSynced)] *)
  cache_WaitForCacheSync : Env -> option bool * Env;
  (** [<-stopCh]: [true] when the signal fires, [false] when it never does *)
  stopCh_fires : Env -> bool
}.

Record World (Env : Type) : Type := mkWorld {
  trace : list Event;
  env : Env
}.
Arguments mkWorld {Env} trace env.
Arguments trace {Env} w.
Arguments env {Env} w.

(** State passing over the world, with panics and blocking. *)
Definition M (Env : Type) (A : Type) : Type :=
  World Env -> Outcome A * World Env.

Definition ret {Env A} (a : A) : M Env A := fun w => (Returns a, w).

Definition bind {Env A B} (m : M Env A) (k : A -> M Env B) : M Env B :=
  fun w =>
    match m w with
    | (Returns a, w') => k a w'
    | (Panics p, w') => (Panics p, w')
    | (Blocks, w') => (Blocks, w')
    end.

Declare Scope go_scope.
Delimit Scope go_scope with go.
Notation "x <- m ;; k" := (bind m (fun x => k))
  (at level 100, m at next level, right associativity) : go_scope.
Notation "m ;;; k" := (bind m (fun _ => k))
  (at level 100, right associativity) : go_scope.
Local Open Scope go_scope.

Definition panic {Env A} (p : Panic) : M Env A := fun w => (Panics p, w).

(** Record an event. *)
Definition emit {Env} (e : Event) : M Env unit :=
  fun w => (Returns tt, mkWorld (trace w ++ [e]) (env w)).

(** Record an event and let the collaborator answer. *)
Definition call {Env A} (e : Event) (f : Env -> A * Env) : M Env A :=
  fun w => let (a, s) := f (env w) in (Returns a, mkWorld (trace w ++ [e]) s).

Definition call_ {Env} (e : Event) (f : Env -> Env) : M Env unit :=
  fun w => (Returns tt, mkWorld (trace w ++ [e]) (f (env w))).

(** The same for an operation that may wait forever. *)
Definition blocking_call {Env A} (e : Event) (f : Env -> option A * Env)
  : M Env A :=
  fun w =>
    let (a, s) := f (env w) in
    let w' := mkWorld (trace w ++ [e]) s in
    match a with
    | Some a => (Returns a, w')
    | None => (Blocks, w')
    end.

(** [defer d] in front of [body]: [d] runs when [body] returns or panics
    (not when it never comes back), and the outcome of [body] stands. *)
Definition defer {Env A} (d : M Env unit) (body : M Env A) : M Env A :=
  fun w =>
    match body w with
    | (Blocks, w') => (Blocks, w')
    | (r, w') =>
        match d w' with
        | (Returns _, w'') => (r, w'')
        | (Panics p, w'') => (Panics p, w'')
        | (Blocks, w'') => (Blocks, w'')
        end
    end.

(** Lift a pure computation that may panic. *)
Definition lift {Env A} (o : Panic + A) : M Env A :=
  match o with
  | inl p => panic p
  | inr a => ret a
  end.

Definition nl : string := String (Ascii.ascii_of_nat 10) EmptyString.

(** ** The finalizer loop of [syncDelete]

    [for i, finalizer := range astro.Finalizers] evaluates its range
    expression once: the loop visits the indices of the slice as it was on
    entry and reads [finalizer] from the backing array, which the body
    writes to.  The body indexes and reslices the field
    [astro.Finalizers], whose length shrinks.  So the state of the loop is
    the backing array [arr] (of the length on entry) and the current
    length [len] of [astro.Finalizers]; the field is [take len arr]. *)
Fixpoint remove_loop (idxs : list nat) (arr : list string) (len : nat)
  : Panic + (list string * nat) :=
  match idxs with
  | [] => inr (arr, len)
  | i :: rest =>
      match arr !! i with
      | None => inl (IndexOutOfRange (Z.of_nat i) (length arr))
      | Some finalizer =>
          if String.eqb finalizer AstroFinalizer then
            (* astro.Finalizers[len(astro.Finalizers)-1] *)
            match len with
            | O => inl (IndexOutOfRange (-1) len)
            | S last =>
                match arr !! last with
                | None => inl (IndexOutOfRange (Z.of_nat last) (length arr))
                | Some x =>
                    (* astro.Finalizers[i] = ... *)
                    if len <=? i then inl (IndexOutOfRange (Z.of_nat i) len)
                    else
                      (* astro.Finalizers = astro.Finalizers[:len-1] *)
                      remove_loop rest (<[i := x]> arr) last
                end
            end
          else remove_loop rest arr len
      end
  end.

(** The loop on a finalizer list: the list it leaves in the field, or the
    panic it raises. *)
Definition remove_finalizer (fs : list string) : Panic + list string :=
  match remove_loop (seq 0 (length fs)) fs (length fs) with
  | inl p => inl p
  | inr (arr, len) => inr (take len arr)
  end.

(** ** The controller *)

Section Controller.

Context {Env : Type} `{Collaborators Env}.

(** A handler works on the object behind its pointer argument; the model
    hands the object back next to the returned error. *)

Definition syncCreate (astro : Astro) : M Env (Astro * option error) :=
  emit (Info ("Sync create astro: " +:+ Name astro +:+ nl)) ;;;
  let astro := set_Finalizers (Finalizers astro ++ [AstroFinalizer]) astro in
  err <- call (ClientUpdate (Namespace astro) astro)
              (astros_Update (Namespace astro) astro) ;;
  match err with
  | Some e => emit (HandleError (Error e)) ;;; ret (astro, Some e)
  | None => ret (astro, None)
  end.

Definition syncUpdate (astro : Astro) : M Env (Astro * option error) :=
  emit (Info ("Sync update astro: " +:+ Name astro +:+ nl)) ;;;
  ret (astro, None).

Definition syncDelete (astro : Astro) : M Env (Astro * option error) :=
  emit (Info ("Sync delete astro: " +:+ Name astro +:+ nl)) ;;;
  fs <- lift (remove_finalizer (Finalizers astro)) ;;
  let astro := set_Finalizers fs astro in
  err <- call (ClientUpdate (Namespace astro) astro)
              (astros_Update (Namespace astro) astro) ;;
  match err with
  | Some e => emit (HandleError (Error e)) ;;; ret (astro, Some e)
  | None => ret (astro, None)
  end.

(** Drop the object a handler hands back: the Go function returns the
    error only. *)
Definition returning_error (m : M Env (Astro * option error))
  : M Env (option error) :=
  r <- m ;; ret (snd r).

Definition syncHandler (key : string) : M Env (option error) :=
  let '(namespace, name, err) := cache.SplitMetaNamespaceKey key in
  match err with
  | Some _ => emit (HandleError ("invalid respirce key:" +:+ key))
  | None => ret tt
  end ;;;
  r <- call (ListerGet namespace name) (lister_Get namespace name) ;;
  match r with
  | inr err =>
      if IsNotFound err then ret None
      else
        emit (HandleError ("failed to get astro by: " +:+ namespace +:+ "/" +:+ name)) ;;;
        ret (Some err)
  | inl astro =>
      if negb (Time_IsZero (DeletionTimestamp astro)) then
        returning_error (syncDelete astro)
      else if existsb (fun finalizer => String.eqb finalizer AstroFinalizer)
                      (Finalizers astro) then
        returning_error (syncUpdate astro)
      else
        returning_error (syncCreate astro)
  end.

Definition processNextWorkItem : M Env bool :=
  got <- blocking_call QGet workqueue_Get ;;
  let '(item, shutdown) := got in
  if (shutdown : bool) then ret false
  else
    err <- defer (call_ (QDone item) (workqueue_Done item))
             match item with
             | ItemOther gosyntax =>
                 call_ (QForget item) (workqueue_Forget item) ;;;
                 emit (HandleError ("expected string in workqueue but got " +:+ gosyntax)) ;;;
                 ret None
             | ItemString key =>
                 err <- syncHandler key ;;
                 match err with
                 | Some e =>
                     ret (Some (Errorf ("error syncing '" +:+ key +:+ "':" +:+ Error e)))
                 | None =>
                     call_ (QForget item) (workqueue_Forget item) ;;;
                     ret None
                 end
             end ;;
    match err with
    | Some e => emit (HandleError (Error e)) ;;; ret false
    | None => ret true
    end.

(** [for c.processNextWorkItem() {}], cut off after [fuel] items. *)
Fixpoint runWorker (fuel : nat) : M Env unit :=
  match fuel with
  | O => ret tt
  | S fuel =>
      more <- processNextWorkItem ;;
      if (more : bool) then runWorker fuel else ret tt
  end.

Definition addAstro (item : Obj) : M Env unit :=
  match cache.MetaNamespaceKeyFunc item with
  | (_, Some err) => emit (HandleError (Error err))
  | (key, None) =>
      emit (Info "Enqueue the astro crd for adding") ;;;
      call_ (QAddRateLimited (ItemString key))
            (workqueue_AddRateLimited (ItemString key))
  end.

Definition deleteAstro (item : Obj) : M Env unit :=
  match cache.DeletionHandlingMetaNamespaceKeyFunc item with
  | (_, Some err) => emit (HandleError (Error err))
  | (key, None) =>
      emit (Info "Enqueue the astro crd for deleting") ;;;
      call_ (QAddRateLimited (ItemString key))
            (workqueue_AddRateLimited (ItemString key))
  end.

(** The type assertion of [x] to a pointer to [v1alpha1.Astro], without
    the comma-ok form, panics on any other dynamic type. *)
Definition assert_Astro (x : Obj) : M Env Astro :=
  match x with
  | ObjAstro a => ret a
  | ObjDeletedFinalStateUnknown key => panic (TypeAssertion key)
  | ObjExplicitKey key => panic (TypeAssertion key)
  | ObjOther gosyntax => panic (TypeAssertion gosyntax)
  end.

Definition updateAstro (old new : Obj) : M Env unit :=
  oldItem <- assert_Astro old ;;
  newItem <- assert_Astro new ;;
  if String.eqb (ResourceVersion oldItem) (ResourceVersion newItem) then ret tt
  else
    match cache.MetaNamespaceKeyFunc new with
    | (_, Some err) => emit (HandleError (Error err))
    | (key, None) =>
        emit (Info "Enqueue the astro crd for updating") ;;;
        call_ (QAddRateLimited (ItemString key))
              (workqueue_AddRateLimited (ItemString key))
    end.

(** [for i := 0; i < thread; i++ { go wait.Until(c.runWorker, ...) }] *)
Fixpoint start_workers (n : nat) : M Env unit :=
  match n with
  | O => ret tt
  | S n => emit GoWorker ;;; start_workers n
  end.

(** [<-stopCh] *)
Definition recv_stop : M Env unit :=
  fun w =>
    let w' := mkWorld (trace w ++ [RecvStop]) (env w) in
    if stopCh_fires (env w) then (Returns tt, w') else (Blocks, w').

(** [runtime.HandleCrash()] as a deferred call: without a panic in flight
    it does nothing; with one it logs and panics again, which [defer]
    keeps as the outcome. *)
Definition HandleCrash : M Env unit := ret tt.

Definition Run (thread : Z) : M Env (option error) :=
  defer HandleCrash
    (defer (_ <- call QShuttingDown workqueue_ShuttingDown ;; ret tt)
       (emit (Info "Starting Astro control loop") ;;;
        emit (Info "Waiting for informer caches to sync") ;;;
        ok <- blocking_call WaitForCacheSync cache_WaitForCacheSync ;;
        if negb ok then ret (Some (Errorf "failed to wati for caches to sync"))
        else
          emit (Info "Starting workers") ;;;
          start_workers (Z.to_nat thread) ;;;
          emit (Info "Started workers") ;;;
          recv_stop ;;;
          emit (Info "Shutting down workers") ;;;
          ret None)).

End Controller.

(** ** An in-memory cluster

    A small instance of the collaborators, to run the controller on
    concrete inputs: a list of queued items, a list of stored objects
    served by the lister and written by the client, injected read and
    write faults, and the answers of the cache sync and the stop
    channel. *)

Record Cluster : Type := mkCluster {
  pending : list Item;
  shutting_down : bool;
  objects : list Astro;
  read_fault : option error;
  write_fault : option error;
  synced : option bool;
  stop : bool
}.

Definition same_object (namespace name : string) (a : Astro) : bool :=
  String.eqb (Namespace a) namespace && String.eqb (Name a) name.

Definition not_found (name : string) : error :=
  StatusError NotFound ("astros.astertower.kasterism.io " +:+ name +:+ " not found").

Definition cluster_Get (c : Cluster) : option (Item * bool) * Cluster :=
  match pending c with
  | item :: rest =>
      (Some (item, false),
       mkCluster rest (shutting_down c) (objects c) (read_fault c)
                 (write_fault c) (synced c) (stop c))
  | [] =>
      if shutting_down c then (Some (ItemOther "<nil>", true), c)
      else (None, c)
  end.

Definition cluster_AddRateLimited (item : Item) (c : Cluster) : Cluster :=
  mkCluster (pending c ++ [item]) (shutting_down c) (objects c) (read_fault c)
            (write_fault c) (synced c) (stop c).

Definition cluster_lister_Get (namespace name : string) (c : Cluster)
  : (Astro + error) * Cluster :=
  match read_fault c with
  | Some e => (inr e, c)
  | None =>
      match List.find (same_object namespace name) (objects c) with
      | Some a => (inl a, c)
      | None => (inr (not_found name), c)
      end
  end.

Definition cluster_Update (namespace : string) (a : Astro) (c : Cluster)
  : option error * Cluster :=
  match write_fault c with
  | Some e => (Some e, c)
  | None =>
      if existsb (same_object namespace (Name a)) (objects c) then
        (None,
         mkCluster (pending c) (shutting_down c)
                   (map (fun b => if same_object namespace (Name a) b then a else b)
                        (objects c))
                   (read_fault c) (write_fault c) (synced c) (stop c))
      else (Some (not_found (Name a)), c)
  end.

#[export] Instance cluster_collaborators : Collaborators Cluster := {
  workqueue_Get := cluster_Get;
  workqueue_Done := fun _ c => c;
  workqueue_Forget := fun _ c => c;
  workqueue_AddRateLimited := cluster_AddRateLimited;
  workqueue_ShuttingDown := fun c => (shutting_down c, c);
  lister_Get := cluster_lister_Get;
  astros_Update := cluster_Update;
  cache_WaitForCacheSync := fun c => (synced c, c);
  stopCh_fires := stop
}.

(** Objects and clusters of the examples. *)
Definition deletion_time : Time := mkTime 1700000000 0.

Definition fresh_a : Astro := mkAstro "ns" "a" "1" [] None.
Definition owned_a : Astro := mkAstro "ns" "a" "2" [AstroFinalizer] None.
Definition doubled_a : Astro :=
  mkAstro "ns" "a" "3" [AstroFinalizer; AstroFinalizer] (Some deletion_time).
Definition foreign_a : Astro :=
  mkAstro "ns" "a" "4" ["kubernetes.io/pvc-protection"] (Some deletion_time).

Definition cluster_with (items : list Item) (objs : list Astro) : Cluster :=
  mkCluster items false objs None None (Some true) true.

Definition start (c : Cluster) : World Cluster := mkWorld [] c.

Definition read_failure : error := StatusError InternalError "etcdserver: request timed out".

(** An object in deletion that holds the token in front of two other
    finalizers, and a refusal of the store. *)
Definition held_a : Astro :=
  mkAstro "ns" "a" "5"
          [AstroFinalizer; "kubernetes.io/pvc-protection"; "example.com/hold"]
          (Some deletion_time).

Definition write_failure : error :=
  StatusError Conflict "the object has been modified; please apply your changes to the latest version and try again".

(** ** Vocabulary of the statements *)

(** The events that are calls on the work queue. *)
Definition is_queue_call (e : Event) : bool :=
  match e with
  | QAdd _ | QAddRateLimited _ | QGet | QDone _ | QForget _
  | QShutDown | QShuttingDown => true
  | _ => false
  end.

(** What [syncHandler] reports about the key before it reads the object. *)
Definition report (perr : option error) (key : string) : list Event :=
  match perr with
  | Some _ => [HandleError ("invalid respirce key:" +:+ key)]
  | None => []
  end.

(** The three states of the specification, in its own words: deleting
    when the deletion timestamp is set, established when the token is in
    the finalizer set, pending otherwise. *)
Inductive State : Type :=
| Deleting
| Established
| Pending.

Definition deletion_requested (a : Astro) : Prop :=
  Time_IsZero (DeletionTimestamp a) = false.

#[export] Instance deletion_requested_dec (a : Astro) : Decision (deletion_requested a).
Proof. unfold deletion_requested. apply _. Defined.

Definition spec_classify (a : Astro) : State :=
  if decide (deletion_requested a) then Deleting
  else if decide (AstroFinalizer ∈ Finalizers a) then Established
  else Pending.

(** The key of an object in the specification's words. *)
Definition spec_key (a : Astro) : string :=
  match Namespace a with
  | EmptyString => Name a
  | _ => Namespace a +:+ "/" +:+ Name a
  end.

(** The object [syncCreate] persists. *)
Definition created (a : Astro) : Astro :=
  set_Finalizers (Finalizers a ++ [AstroFinalizer]) a.

Definition occurrences (fs : list string) : nat :=
  length (filter (fun f => f = AstroFinalizer) fs).

(** Loop invariant of [remove_loop]: the part of the field that the loop
    has visited holds no token. *)
Definition clean (i : nat) (arr : list string) (len : nat) : Prop :=
  forall j, j < i -> j < len -> arr !! j <> Some AstroFinalizer.

(** [w'] continues [w] by events that are not calls on the work queue. *)
Definition quiet_extension {Env : Type} (w w' : World Env) : Prop :=
  exists evs,
    trace w' = trace w ++ evs /\ Forall (fun e => is_queue_call e = false) evs.

(** [w'] continues [w] by events among which every call on the work queue
    is an [AddRateLimited]. *)
Definition enqueues_rate_limited {Env : Type} (w w' : World Env) : Prop :=
  exists evs,
    trace w' = trace w ++ evs /\
    Forall (fun e => is_queue_call e = true -> exists item, e = QAddRateLimited item)
           evs.

(** The events of [Run] up to the start of the workers. *)
Definition Run_prologue : list Event :=
  [Info "Starting Astro control loop";
   Info "Waiting for informer caches to sync";
   WaitForCacheSync].

Section Handling.

Context {Env : Type} `{Collaborators Env}.

Definition handling (s : State) : Astro -> M Env (Astro * option error) :=
  match s with
  | Deleting => syncDelete
  | Established => syncUpdate
  | Pending => syncCreate
  end.

End Handling.

(** ** The handlers as registered

    [NewAstroController] registers [addAstro], [deleteAstro] and
    [updateAstro] as the [AddFunc], [DeleteFunc] and [UpdateFunc] of the
    informer; the informer calls the one that fits each notification, one
    notification after the other. *)
Inductive Notification : Type :=
| Added (obj : Obj)
| Updated (old new : Obj)
| Deleted (obj : Obj).

Section Registration.

Context {Env : Type} `{Collaborators Env}.

Definition on_notification (n : Notification) : M Env unit :=
  match n with
  | Added obj => addAstro obj
  | Updated old new => updateAstro old new
  | Deleted obj => deleteAstro obj
  end.

Fixpoint deliver (ns : list Notification) : M Env unit :=
  match ns with
  | [] => ret tt
  | n :: rest => on_notification n ;;; deliver rest
  end.

End Registration.

(** ** More vocabulary *)

(** The finalizers other than the token. *)
Definition others (fs : list string) : list string :=
  filter (fun f => f <> AstroFinalizer) fs.

Definition is_Get (e : Event) : bool :=
  match e with QGet => true | _ => false end.

Definition is_Done (e : Event) : bool :=
  match e with QDone _ => true | _ => false end.

Definition is_read (e : Event) : bool :=
  match e with ListerGet _ _ => true | _ => false end.

Definition is_write (e : Event) : bool :=
  match e with ClientUpdate _ _ => true | _ => false end.

Definition is_GoWorker (e : Event) : bool :=
  match e with GoWorker => true | _ => false end.

(** The calls a worker makes on the queue. *)
Definition is_worker_call (e : Event) : bool :=
  match e with
  | QGet | QDone _ | QForget _ => true
  | _ => false
  end.

Definition count_events (p : Event -> bool) (evs : list Event) : nat :=
  length (List.filter p evs).

(** The calls on the work queue among some events, in order. *)
Definition queue_calls (evs : list Event) : list Event :=
  List.filter is_queue_call evs.

(** What a handler reports after an update of the object. *)
Definition persist_report (err : option error) : list Event :=
  match err with
  | Some e => [HandleError (Error e)]
  | None => []
  end.

Fixpoint has_slash (s : string) : bool :=
  match s with
  | EmptyString => false
  | String c rest => Ascii.eqb c "/"%char || has_slash rest
  end.

(** A notification about Astro objects, as the informer of Astros sends
    them: the old and the new object of an update are Astros; the object
    of an add is an Astro; the object of a delete is an Astro or the
    tombstone [DeletedFinalStateUnknown]. *)
Definition from_Astro_informer (n : Notification) : Prop :=
  match n with
  | Added (ObjAstro _) => True
  | Updated (ObjAstro _) (ObjAstro _) => True
  | Deleted (ObjAstro _) => True
  | Deleted (ObjDeletedFinalStateUnknown _) => True
  | _ => False
  end.

(** The key such a notification puts on the queue, if any. *)
Definition enqueued_key (n : Notification) : option string :=
  match n with
  | Added (ObjAstro a) => Some (spec_key a)
  | Updated (ObjAstro o) (ObjAstro a) =>
      if String.eqb (ResourceVersion o) (ResourceVersion a) then None
      else Some (spec_key a)
  | Deleted (ObjAstro a) => Some (spec_key a)
  | Deleted (ObjDeletedFinalStateUnknown key) => Some key
  | _ => None
  end.

(** * Properties *)

(** ** The loop that looks for the token *)

Lemma has_token_spec (fs : list string) :
  existsb (fun finalizer => String.eqb finalizer AstroFinalizer) fs = true
  <-> AstroFinalizer ∈ fs.
Proof.
  rewrite existsb_exists, list_elem_of_In. split.
  - intros (f & Hin & Heq). apply String.eqb_eq in Heq. now subst.
  - intros Hin. exists AstroFinalizer. split; [assumption | apply String.eqb_refl].
Qed.

Lemma has_token_false (fs : list string) :
  existsb (fun finalizer => String.eqb finalizer AstroFinalizer) fs = false
  <-> AstroFinalizer ∉ fs.
Proof.
  rewrite <- has_token_spec.
  destruct (existsb _ fs); split; intros; congruence.
Qed.

Lemma set_Finalizers_same (a : Astro) : set_Finalizers (Finalizers a) a = a.
Proof. now destruct a. Qed.

Lemma spec_classify_deleting (a : Astro) :
  deletion_requested a -> spec_classify a = Deleting.
Proof. intros Hd. unfold spec_classify. now rewrite decide_True. Qed.

Lemma spec_classify_established (a : Astro) :
  ~ deletion_requested a -> AstroFinalizer ∈ Finalizers a ->
  spec_classify a = Established.
Proof.
  intros Hd Hin. unfold spec_classify.
  now rewrite decide_False, decide_True.
Qed.

Lemma spec_classify_pending (a : Astro) :
  ~ deletion_requested a -> AstroFinalizer ∉ Finalizers a ->
  spec_classify a = Pending.
Proof.
  intros Hd Hin. unfold spec_classify. now rewrite !decide_False.
Qed.

(** ** Counting the token *)

Lemma occurrences_app (fs gs : list string) :
  occurrences (fs ++ gs) = occurrences fs + occurrences gs.
Proof. unfold occurrences. now rewrite filter_app, length_app. Qed.

Lemma occurrences_created (astro : Astro) :
  occurrences (Finalizers (created astro)) = S (occurrences (Finalizers astro)).
Proof.
  unfold created. simpl. rewrite occurrences_app.
  change (occurrences [AstroFinalizer]) with 1. lia.
Qed.

Lemma occurrences_absent (fs : list string) :
  AstroFinalizer ∉ fs <-> occurrences fs = 0.
Proof.
  unfold occurrences. rewrite length_zero_iff_nil. split.
  - intros Hnot. induction fs as [| f fs IH]; [reflexivity |].
    rewrite filter_cons. apply not_elem_of_cons in Hnot as [Hne Hnot].
    rewrite decide_False by congruence. now apply IH.
  - intros Hnil Hin.
    assert (Hf : AstroFinalizer ∈ filter (fun f => f = AstroFinalizer) fs)
      by (apply list_elem_of_filter; split; [reflexivity | assumption]).
    rewrite Hnil in Hf. inversion Hf.
Qed.

(** ** One run of [syncHandler], by what the lister answers *)

Section SyncHandler.

Context {Env : Type} `{Collaborators Env}.

Ltac step_go :=
  unfold returning_error, bind, emit, call, call_, ret, lift, panic; simpl.

Ltac read_with Hk Hl :=
  unfold syncHandler; rewrite Hk;
  match goal with
  | |- context [report ?perr _] => destruct perr
  end; step_go; rewrite Hl; simpl.

Ltac finish_go := step_go; rewrite <- ?app_assoc; simpl; reflexivity.

Lemma syncHandler_not_found key namespace name perr (w : World Env) e s1 :
  cache.SplitMetaNamespaceKey key = (namespace, name, perr) ->
  lister_Get namespace name (env w) = (inr e, s1) ->
  IsNotFound e = true ->
  syncHandler key w =
    (Returns None,
     mkWorld (trace w ++ report perr key ++ [ListerGet namespace name]) s1).
Proof.
  intros Hk Hl Hnf. read_with Hk Hl; rewrite Hnf; finish_go.
Qed.

Lemma syncHandler_read_error key namespace name perr (w : World Env) e s1 :
  cache.SplitMetaNamespaceKey key = (namespace, name, perr) ->
  lister_Get namespace name (env w) = (inr e, s1) ->
  IsNotFound e = false ->
  syncHandler key w =
    (Returns (Some e),
     mkWorld (trace w ++ report perr key ++
                [ListerGet namespace name;
                 HandleError ("failed to get astro by: " +:+ namespace +:+ "/" +:+ name)])
             s1).
Proof.
  intros Hk Hl Hnf. read_with Hk Hl; rewrite Hnf; finish_go.
Qed.

Lemma syncHandler_dispatch key namespace name perr (w : World Env) astro s1 :
  cache.SplitMetaNamespaceKey key = (namespace, name, perr) ->
  lister_Get namespace name (env w) = (inl astro, s1) ->
  syncHandler key w =
    returning_error (handling (spec_classify astro) astro)
      (mkWorld (trace w ++ report perr key ++ [ListerGet namespace name]) s1).
Proof.
  intros Hk Hl. unfold spec_classify, deletion_requested.
  destruct (decide (Time_IsZero (DeletionTimestamp astro) = false)) as [Hd | Hd].
  - read_with Hk Hl; rewrite Hd; simpl; finish_go.
  - apply not_false_is_true in Hd.
    destruct (decide (AstroFinalizer ∈ Finalizers astro)) as [Hin | Hin].
    + pose proof (proj2 (has_token_spec _) Hin) as Ht.
      read_with Hk Hl; rewrite Hd; simpl; rewrite Ht; finish_go.
    + pose proof (proj2 (has_token_false _) Hin) as Ht.
      read_with Hk Hl; rewrite Hd; simpl; rewrite Ht; finish_go.
Qed.

End SyncHandler.

(** ** One step of a worker, by what [syncHandler] returns *)

Section Worker.

Context {Env : Type} `{Collaborators Env}.

Lemma processNextWorkItem_string (w : World Env) key s0 r w2 :
  workqueue_Get (env w) = (Some (ItemString key, false), s0) ->
  syncHandler key (mkWorld (trace w ++ [QGet]) s0) = (Returns r, w2) ->
  processNextWorkItem w =
    match r with
    | Some e =>
        (Returns false,
         mkWorld (trace w2 ++
                    [QDone (ItemString key);
                     HandleError ("error syncing '" +:+ key +:+ "':" +:+ Error e)])
                 (workqueue_Done (ItemString key) (env w2)))
    | None =>
        (Returns true,
         mkWorld (trace w2 ++ [QForget (ItemString key); QDone (ItemString key)])
                 (workqueue_Done (ItemString key)
                    (workqueue_Forget (ItemString key) (env w2))))
    end.
Proof.
  intros Hget Hsync.
  unfold processNextWorkItem, bind at 1, blocking_call. rewrite Hget.
  unfold bind at 1, defer, bind at 1. rewrite Hsync.
  destruct r as [e |]; unfold bind, call_, emit, ret; simpl;
    rewrite <- ?app_assoc; reflexivity.
Qed.

Lemma processNextWorkItem_panic (w : World Env) key s0 p w2 :
  workqueue_Get (env w) = (Some (ItemString key, false), s0) ->
  syncHandler key (mkWorld (trace w ++ [QGet]) s0) = (Panics p, w2) ->
  processNextWorkItem w =
    (Panics p,
     mkWorld (trace w2 ++ [QDone (ItemString key)])
             (workqueue_Done (ItemString key) (env w2))).
Proof.
  intros Hget Hsync.
  unfold processNextWorkItem, bind at 1, blocking_call. rewrite Hget.
  unfold bind at 1, defer, bind at 1. rewrite Hsync.
  unfold call_. reflexivity.
Qed.

(** A step that returns false ends the loop of the worker. *)
Lemma runWorker_stops (fuel : nat) (w w' : World Env) :
  processNextWorkItem w = (Returns false, w') ->
  runWorker (S fuel) w = (Returns tt, w').
Proof. intros Hstep. simpl. unfold bind. rewrite Hstep. reflexivity. Qed.

End Worker.

(** ** Classification (C3) *)

Section Classification.

Context {Env : Type} `{Collaborators Env}.

(** C3: an object that was read is handled by exactly one of the three
    handlers, chosen in this order: deletion handling when the deletion
    timestamp is set, whatever the finalizers are; otherwise update
    handling when the token is among the finalizers; otherwise creation
    handling. *)
Theorem syncHandler_classifies
    key namespace name perr (w : World Env) astro s1 :
  cache.SplitMetaNamespaceKey key = (namespace, name, perr) ->
  lister_Get namespace name (env w) = (inl astro, s1) ->
  let w1 := mkWorld (trace w ++ report perr key ++ [ListerGet namespace name]) s1 in
  (deletion_requested astro ->
     syncHandler key w = returning_error (syncDelete astro) w1) /\
  (~ deletion_requested astro -> AstroFinalizer ∈ Finalizers astro ->
     syncHandler key w = returning_error (syncUpdate astro) w1) /\
  (~ deletion_requested astro -> AstroFinalizer ∉ Finalizers astro ->
     syncHandler key w = returning_error (syncCreate astro) w1).
Proof.
  intros Hk Hl w1.
  pose proof (syncHandler_dispatch key namespace name perr w astro s1 Hk Hl) as Hd.
  fold w1 in Hd.
  repeat split; intros; rewrite Hd.
  - rewrite spec_classify_deleting by assumption. reflexivity.
  - rewrite spec_classify_established by assumption. reflexivity.
  - rewrite spec_classify_pending by assumption. reflexivity.
Qed.

End Classification.

Lemma syncHandler_classifies_witness :
  syncHandler "ns/a" (start (cluster_with [] [doubled_a])) =
  returning_error (syncDelete doubled_a)
    (mkWorld [ListerGet "ns" "a"] (cluster_with [] [doubled_a])).
Proof.
  apply (syncHandler_classifies "ns/a" "ns" "a" None
           (start (cluster_with [] [doubled_a])) doubled_a
           (cluster_with [] [doubled_a])); reflexivity.
Defined.

(** ** Not found (C4) *)

Section NotFound.

Context {Env : Type} `{Collaborators Env}.

(** C4: for a well-formed key whose object the lister does not find,
    [syncHandler] returns nil, and the worker that pulled the key calls
    [Forget] and [Done] for it and nothing else on the queue: no retry is
    scheduled. *)
Theorem not_found_is_success
    key namespace name (w : World Env) s0 e s1 :
  cache.SplitMetaNamespaceKey key = (namespace, name, None) ->
  workqueue_Get (env w) = (Some (ItemString key, false), s0) ->
  lister_Get namespace name s0 = (inr e, s1) ->
  IsNotFound e = true ->
  syncHandler key (mkWorld (trace w ++ [QGet]) s0) =
    (Returns None,
     mkWorld (trace w ++ [QGet; ListerGet namespace name]) s1) /\
  processNextWorkItem w =
    (Returns true,
     mkWorld (trace w ++ [QGet; ListerGet namespace name;
                          QForget (ItemString key); QDone (ItemString key)])
             (workqueue_Done (ItemString key)
                (workqueue_Forget (ItemString key) s1))).
Proof.
  intros Hk Hget Hl Hnf.
  assert (Hsync : syncHandler key (mkWorld (trace w ++ [QGet]) s0) =
                  (Returns None,
                   mkWorld (trace w ++ [QGet; ListerGet namespace name]) s1)).
  { rewrite (syncHandler_not_found key namespace name None
               (mkWorld (trace w ++ [QGet]) s0) e s1 Hk Hl Hnf).
    simpl. rewrite <- app_assoc. reflexivity. }
  split; [exact Hsync |].
  rewrite (processNextWorkItem_string w key s0 None _ Hget Hsync).
  simpl. rewrite <- app_assoc. reflexivity.
Qed.

End NotFound.

Lemma not_found_is_success_witness :
  processNextWorkItem (start (cluster_with [ItemString "ns/ghost"] [])) =
    (Returns true,
     mkWorld [QGet; ListerGet "ns" "ghost";
              QForget (ItemString "ns/ghost"); QDone (ItemString "ns/ghost")]
             (cluster_with [] [])).
Proof.
  destruct (not_found_is_success "ns/ghost" "ns" "ghost"
              (start (cluster_with [ItemString "ns/ghost"] []))
              (cluster_with [] []) (not_found "ghost") (cluster_with [] []))
    as [_ Hworker]; [reflexivity .. |].
  exact Hworker.
Defined.

(** ** The three handlers *)

Section Handlers.

Context {Env : Type} `{Collaborators Env}.

Lemma syncUpdate_unchanged (astro : Astro) (w : World Env) :
  syncUpdate astro w =
    (Returns (astro, None),
     mkWorld (trace w ++ [Info ("Sync update astro: " +:+ Name astro +:+ nl)])
             (env w)).
Proof. reflexivity. Qed.

Lemma syncCreate_appends (astro : Astro) (w : World Env) s2 :
  astros_Update (Namespace astro) (created astro) (env w) = (None, s2) ->
  syncCreate astro w =
    (Returns (created astro, None),
     mkWorld (trace w ++ [Info ("Sync create astro: " +:+ Name astro +:+ nl);
                          ClientUpdate (Namespace astro) (created astro)])
             s2).
Proof.
  intros Hup. unfold syncCreate, bind, emit, call, ret. simpl.
  fold (created astro). rewrite Hup. simpl. rewrite <- app_assoc. reflexivity.
Qed.

Lemma syncCreate_persist_fails (astro : Astro) (w : World Env) e s2 :
  astros_Update (Namespace astro) (created astro) (env w) = (Some e, s2) ->
  syncCreate astro w =
    (Returns (created astro, Some e),
     mkWorld (trace w ++ [Info ("Sync create astro: " +:+ Name astro +:+ nl);
                          ClientUpdate (Namespace astro) (created astro);
                          HandleError (Error e)])
             s2).
Proof.
  intros Hup. unfold syncCreate, bind, emit, call, ret. simpl.
  fold (created astro). rewrite Hup. simpl. rewrite <- !app_assoc. reflexivity.
Qed.

End Handlers.

(** ** The finalizer loop of [syncDelete] *)

Lemma token_eqb (f : string) :
  String.eqb f AstroFinalizer = true <-> f = AstroFinalizer.
Proof. apply String.eqb_eq. Qed.

Lemma token_eqb_false (f : string) :
  String.eqb f AstroFinalizer = false <-> f <> AstroFinalizer.
Proof. apply String.eqb_neq. Qed.

(** Without the token in the array the loop changes nothing. *)
Lemma remove_loop_absent (idxs : list nat) (arr : list string) (len : nat) :
  AstroFinalizer ∉ arr ->
  Forall (fun i => i < length arr) idxs ->
  remove_loop idxs arr len = inr (arr, len).
Proof.
  intros Hnot Hidx. induction Hidx as [| i idxs Hi _ IH]; [reflexivity |].
  simpl. destruct (lookup_lt_is_Some_2 arr i Hi) as [f Hf]. rewrite Hf.
  assert (Hne : f <> AstroFinalizer).
  { intros ->. apply Hnot. eapply list_elem_of_lookup_2, Hf. }
  apply token_eqb_false in Hne. rewrite Hne. exact IH.
Qed.

Lemma remove_finalizer_absent (fs : list string) :
  AstroFinalizer ∉ fs -> remove_finalizer fs = inr fs.
Proof.
  intros Hnot. unfold remove_finalizer.
  rewrite remove_loop_absent; [| assumption |].
  - now rewrite firstn_all.
  - apply Forall_seq. intros j Hj. lia.
Qed.

(** A token that sits at or beyond the current length, at an index the
    loop has still to visit, makes the loop panic: nothing writes to that
    index any more, and the length only shrinks. *)
Lemma remove_loop_doomed (idxs : list nat) :
  forall (arr : list string) (len k : nat),
    k ∈ idxs ->
    arr !! k = Some AstroFinalizer ->
    len <= k ->
    exists p, remove_loop idxs arr len = inl p.
Proof.
  induction idxs as [| i idxs IH]; intros arr len k Hin Hk Hlen.
  - inversion Hin.
  - simpl. destruct (decide (i = k)) as [-> | Hne].
    + rewrite Hk. rewrite String.eqb_refl.
      destruct len as [| last]; [eauto |].
      destruct (arr !! last); [| eauto].
      assert (Hle : (S last <=? k) = true) by (apply Nat.leb_le; lia).
      rewrite Hle. eauto.
    + assert (Hin' : k ∈ idxs).
      { apply elem_of_cons in Hin as [Heq | Hin']; [congruence | assumption]. }
      destruct (arr !! i) as [f |]; [| eauto].
      destruct (String.eqb f AstroFinalizer); [| eauto].
      destruct len as [| last]; [eauto |].
      destruct (arr !! last) as [x |]; [| eauto].
      destruct (S last <=? i) eqn:Hle; [eauto |].
      apply Nat.leb_gt in Hle.
      apply (IH _ _ k); [assumption | | lia].
      rewrite list_lookup_insert_ne by lia. assumption.
Qed.

Lemma remove_loop_clean (m : nat) :
  forall (i : nat) (arr : list string) (len : nat) arr' len',
    i + m = length arr ->
    len <= length arr ->
    clean i arr len ->
    remove_loop (seq i m) arr len = inr (arr', len') ->
    clean (i + m) arr' len' /\ len' <= len /\ length arr' = length arr.
Proof.
  induction m as [| m IH]; intros i arr len arr' len' Hn Hlen Hclean Hrun.
  - simpl in Hrun. injection Hrun as <- <-.
    rewrite Nat.add_0_r. auto.
  - simpl in Hrun.
    destruct (arr !! i) as [f |] eqn:Hf; [| discriminate].
    destruct (String.eqb f AstroFinalizer) eqn:Htok.
    + apply token_eqb in Htok. subst f.
      destruct len as [| last]; [discriminate |].
      destruct (arr !! last) as [x |] eqn:Hx; [| discriminate].
      destruct (S last <=? i) eqn:Hle; [discriminate |].
      apply Nat.leb_gt in Hle.
      assert (Hx_ok : i < last -> x <> AstroFinalizer).
      { intros Hlt ->.
        destruct (remove_loop_doomed (seq (S i) m) (<[i := AstroFinalizer]> arr)
                    last last) as [p Hp]; [| | lia |].
        - apply elem_of_seq. lia.
        - rewrite list_lookup_insert_ne by lia. assumption.
        - rewrite Hp in Hrun. discriminate. }
      destruct (IH (S i) (<[i := x]> arr) last arr' len') as (Hc & Hl & Hlen');
        [rewrite length_insert; lia | rewrite length_insert; lia | | assumption |].
      * intros j Hj Hjl. destruct (decide (j = i)) as [-> | Hji].
        -- rewrite list_lookup_insert_eq by lia.
           intros [= ->]. now apply Hx_ok.
        -- rewrite list_lookup_insert_ne by congruence.
           apply Hclean; lia.
      * rewrite length_insert in Hlen'.
        replace (i + S m) with (S i + m) by lia. repeat split; [assumption | lia | assumption].
    + apply token_eqb_false in Htok.
      destruct (IH (S i) arr len arr' len') as (Hc & Hl & Hlen');
        [lia | assumption | | assumption |].
      * intros j Hj Hjl. destruct (decide (j = i)) as [-> | Hji].
        -- rewrite Hf. congruence.
        -- apply Hclean; lia.
      * replace (i + S m) with (S i + m) by lia. auto.
Qed.

(** Whenever the loop comes to its end, the list it leaves is free of the
    token. *)
Lemma remove_finalizer_sound (fs fs' : list string) :
  remove_finalizer fs = inr fs' -> AstroFinalizer ∉ fs'.
Proof.
  unfold remove_finalizer.
  destruct (remove_loop (seq 0 (length fs)) fs (length fs))
    as [p | [arr len]] eqn:Hrun; [discriminate |].
  intros [= <-].
  destruct (remove_loop_clean (length fs) 0 fs (length fs) arr len)
    as (Hc & Hl & Hlen); [lia | lia | | assumption |].
  { intros j Hj. lia. }
  intros Hin. apply list_elem_of_lookup in Hin as [j Hj].
  pose proof (lookup_lt_Some _ _ _ Hj) as Hlt.
  rewrite length_take in Hlt.
  rewrite lookup_take_lt in Hj by lia.
  apply (Hc j); [lia | lia | assumption].
Qed.

(** With at most one occurrence of the token the loop never indexes out
    of range. *)
Lemma remove_loop_single (m : nat) :
  forall (i : nat) (arr : list string) (len : nat),
    i + m = length arr ->
    len <= length arr ->
    (forall j, i <= j -> arr !! j = Some AstroFinalizer -> j < len) ->
    (forall j j', i <= j -> i <= j' ->
       arr !! j = Some AstroFinalizer -> arr !! j' = Some AstroFinalizer ->
       j = j') ->
    exists arr' len', remove_loop (seq i m) arr len = inr (arr', len').
Proof.
  induction m as [| m IH]; intros i arr len Hn Hlen Hlive Huniq.
  - simpl. eauto.
  - simpl.
    destruct (lookup_lt_is_Some_2 arr i) as [f Hf]; [lia |]. rewrite Hf.
    destruct (String.eqb f AstroFinalizer) eqn:Htok.
    + apply token_eqb in Htok. subst f.
      pose proof (Hlive i (Nat.le_refl i) Hf) as Hi.
      destruct len as [| last]; [lia |].
      destruct (lookup_lt_is_Some_2 arr last) as [x Hx]; [lia |]. rewrite Hx.
      assert (Hle : (S last <=? i) = false) by (apply Nat.leb_gt; lia).
      rewrite Hle.
      assert (Hgone : forall j, S i <= j ->
                <[i := x]> arr !! j = Some AstroFinalizer -> False).
      { intros j Hj Hjt. rewrite list_lookup_insert_ne in Hjt by lia.
        assert (j = i) by (apply Huniq; [lia | lia | assumption | assumption]).
        lia. }
      apply IH.
      * rewrite length_insert. lia.
      * rewrite length_insert. lia.
      * intros j Hj Hjt. destruct (Hgone j Hj Hjt).
      * intros j j' Hj _ Hjt _. destruct (Hgone j Hj Hjt).
    + apply IH; [lia | assumption | |].
      * intros j Hj. apply Hlive. lia.
      * intros j j' Hj Hj'. apply Huniq; lia.
Qed.

Lemma occurrences_cons (f : string) (fs : list string) :
  occurrences (f :: fs) =
  (if decide (f = AstroFinalizer) then 1 else 0) + occurrences fs.
Proof.
  unfold occurrences. rewrite filter_cons.
  destruct (decide (f = AstroFinalizer)); reflexivity.
Qed.

Lemma occurrences_unique (fs : list string) :
  occurrences fs <= 1 ->
  forall j j',
    fs !! j = Some AstroFinalizer -> fs !! j' = Some AstroFinalizer -> j = j'.
Proof.
  induction fs as [| f fs IH]; intros Hocc j j' Hj Hj'.
  - discriminate.
  - rewrite occurrences_cons in Hocc.
    assert (Htail : forall k, fs !! k = Some AstroFinalizer ->
                      f = AstroFinalizer -> False).
    { intros k Hk ->. rewrite decide_True in Hocc by reflexivity.
      assert (Hzero : occurrences fs = 0) by lia.
      apply occurrences_absent in Hzero.
      apply Hzero. eapply list_elem_of_lookup_2, Hk. }
    destruct j as [| j], j' as [| j']; simpl in Hj, Hj'.
    + reflexivity.
    + injection Hj as ->. destruct (Htail j' Hj' eq_refl).
    + injection Hj' as ->. destruct (Htail j Hj eq_refl).
    + f_equal. apply IH; [| assumption | assumption].
      destruct (decide (f = AstroFinalizer)); lia.
Qed.

(** On a finalizer list that holds the token at most once the loop comes
    to its end and leaves a list without the token. *)
Lemma remove_finalizer_single (fs : list string) :
  occurrences fs <= 1 ->
  exists fs', remove_finalizer fs = inr fs' /\ AstroFinalizer ∉ fs'.
Proof.
  intros Hocc.
  destruct (remove_loop_single (length fs) 0 fs (length fs))
    as (arr & len & Hrun); [lia | lia | | |].
  - intros j _ Hj. apply (lookup_lt_Some _ _ _ Hj).
  - intros j j' _ _. now apply occurrences_unique.
  - assert (Hfs : remove_finalizer fs = inr (take len arr))
      by (unfold remove_finalizer; now rewrite Hrun).
    exists (take len arr). split; [assumption |].
    now apply (remove_finalizer_sound fs).
Qed.

(** ** What the handlers do to the world *)

Section HandlerRuns.

Context {Env : Type} `{Collaborators Env}.

Lemma syncDelete_removed (astro : Astro) (w : World Env) fs err s2 :
  remove_finalizer (Finalizers astro) = inr fs ->
  astros_Update (Namespace astro) (set_Finalizers fs astro) (env w) = (err, s2) ->
  syncDelete astro w =
    (Returns (set_Finalizers fs astro, err),
     mkWorld (trace w ++
                [Info ("Sync delete astro: " +:+ Name astro +:+ nl);
                 ClientUpdate (Namespace astro) (set_Finalizers fs astro)] ++
                match err with
                | Some e => [HandleError (Error e)]
                | None => []
                end)
             s2).
Proof.
  intros Hloop Hup. unfold syncDelete, bind, emit, call, ret, lift. simpl.
  rewrite Hloop. simpl in *. rewrite Hup.
  destruct err; simpl; rewrite <- ?app_assoc; reflexivity.
Qed.

Lemma syncDelete_panics (astro : Astro) (w : World Env) p :
  remove_finalizer (Finalizers astro) = inl p ->
  syncDelete astro w =
    (Panics p,
     mkWorld (trace w ++ [Info ("Sync delete astro: " +:+ Name astro +:+ nl)])
             (env w)).
Proof.
  intros Hloop. unfold syncDelete, bind, emit, call, ret, lift. simpl.
  rewrite Hloop. reflexivity.
Qed.

Ltac quiet :=
  eexists; split;
  [ simpl; rewrite <- ?app_assoc; simpl; reflexivity
  | repeat constructor ].

Lemma syncCreate_quiet (astro : Astro) (w : World Env) :
  quiet_extension w (snd (syncCreate astro w)).
Proof.
  destruct (astros_Update (Namespace astro) (created astro) (env w))
    as [[e |] s2] eqn:Hup.
  - rewrite (syncCreate_persist_fails astro w e s2 Hup). quiet.
  - rewrite (syncCreate_appends astro w s2 Hup). quiet.
Qed.

Lemma syncUpdate_quiet (astro : Astro) (w : World Env) :
  quiet_extension w (snd (syncUpdate astro w)).
Proof. rewrite syncUpdate_unchanged. quiet. Qed.

Lemma syncDelete_quiet (astro : Astro) (w : World Env) :
  quiet_extension w (snd (syncDelete astro w)).
Proof.
  destruct (remove_finalizer (Finalizers astro)) as [p | fs] eqn:Hloop.
  - rewrite (syncDelete_panics astro w p Hloop). quiet.
  - destruct (astros_Update (Namespace astro) (set_Finalizers fs astro) (env w))
      as [err s2] eqn:Hup.
    rewrite (syncDelete_removed astro w fs err s2 Hloop Hup).
    destruct err; quiet.
Qed.

Lemma returning_error_world (m : M Env (Astro * option error)) (w : World Env) :
  snd (returning_error m w) = snd (m w).
Proof.
  unfold returning_error, bind, ret. destruct (m w) as [[r | p |] w']; reflexivity.
Qed.

Lemma quiet_extension_trans (w1 w2 w3 : World Env) :
  quiet_extension w1 w2 -> quiet_extension w2 w3 -> quiet_extension w1 w3.
Proof.
  intros (e1 & H1 & F1) (e2 & H2 & F2). exists (e1 ++ e2). split.
  - rewrite H2, H1, app_assoc. reflexivity.
  - apply Forall_app. auto.
Qed.

(** [syncHandler] makes no call on the work queue. *)
Lemma syncHandler_quiet (key : string) (w : World Env) :
  quiet_extension w (snd (syncHandler key w)).
Proof.
  destruct (cache.SplitMetaNamespaceKey key) as [[namespace name] perr] eqn:Hk.
  destruct (lister_Get namespace name (env w)) as [[astro | e] s1] eqn:Hl.
  - rewrite (syncHandler_dispatch key namespace name perr w astro s1 Hk Hl).
    rewrite returning_error_world.
    eapply quiet_extension_trans.
    2: { destruct (spec_classify astro); simpl;
         [apply syncDelete_quiet | apply syncUpdate_quiet | apply syncCreate_quiet]. }
    destruct perr; quiet.
  - destruct (IsNotFound e) eqn:Hnf.
    + rewrite (syncHandler_not_found key namespace name perr w e s1 Hk Hl Hnf).
      destruct perr; quiet.
    + rewrite (syncHandler_read_error key namespace name perr w e s1 Hk Hl Hnf).
      destruct perr; quiet.
Qed.

End HandlerRuns.

(** ** Creation handling and the token (C1) *)

(** C1, as the specification states it, fails: [syncCreate] run on an
    object that already holds the token persists without error and leaves
    the token twice in the finalizers. *)
Lemma syncCreate_adds_second_token :
  AstroFinalizer ∈ Finalizers owned_a /\
  exists w',
    syncCreate owned_a (start (cluster_with [] [owned_a])) =
      (Returns (created owned_a, None), w') /\
    Finalizers (created owned_a) = [AstroFinalizer; AstroFinalizer] /\
    Finalizers (created owned_a) <> Finalizers owned_a.
Proof.
  split; [apply list_elem_of_here |].
  exists (snd (syncCreate owned_a (start (cluster_with [] [owned_a])))).
  split; [vm_compute; reflexivity |]. split; [reflexivity | discriminate].
Qed.

Section Creation.

Context {Env : Type} `{Collaborators Env}.

(** C1, amended: [syncCreate] appends the token unconditionally, so on an
    object that already holds the token it adds one more occurrence (and
    returns no error when the persist succeeds).  It is [syncHandler] that
    keeps the token single: an object with no deletion request that holds
    the token goes to update handling, which writes nothing, leaves the
    finalizers as they are and returns no error. *)
Theorem creation_is_guarded_by_syncHandler
    key namespace name perr (w : World Env) astro s1 s2 :
  cache.SplitMetaNamespaceKey key = (namespace, name, perr) ->
  lister_Get namespace name (env w) = (inl astro, s1) ->
  ~ deletion_requested astro ->
  AstroFinalizer ∈ Finalizers astro ->
  astros_Update (Namespace astro) (created astro) s1 = (None, s2) ->
  let w1 := mkWorld (trace w ++ report perr key ++ [ListerGet namespace name]) s1 in
  (syncCreate astro w1 =
     (Returns (created astro, None),
      mkWorld (trace w1 ++
                 [Info ("Sync create astro: " +:+ Name astro +:+ nl);
                  ClientUpdate (Namespace astro) (created astro)])
              s2) /\
   Finalizers (created astro) = Finalizers astro ++ [AstroFinalizer] /\
   occurrences (Finalizers (created astro)) = S (occurrences (Finalizers astro))) /\
  (syncHandler key w =
     (Returns None,
      mkWorld (trace w1 ++ [Info ("Sync update astro: " +:+ Name astro +:+ nl)])
              s1) /\
   syncUpdate astro w1 =
     (Returns (astro, None),
      mkWorld (trace w1 ++ [Info ("Sync update astro: " +:+ Name astro +:+ nl)])
              s1)).
Proof.
  intros Hk Hl Hlive Htok Hup w1. split; [split; [| split] | split].
  - apply syncCreate_appends. exact Hup.
  - reflexivity.
  - apply occurrences_created.
  - rewrite (syncHandler_dispatch key namespace name perr w astro s1 Hk Hl).
    rewrite (spec_classify_established astro Hlive Htok). reflexivity.
  - reflexivity.
Qed.

End Creation.

Lemma creation_is_guarded_by_syncHandler_witness :
  syncHandler "ns/a" (start (cluster_with [] [owned_a])) =
    (Returns None,
     mkWorld [ListerGet "ns" "a"; Info ("Sync update astro: " +:+ "a" +:+ nl)]
             (cluster_with [] [owned_a])).
Proof.
  destruct (creation_is_guarded_by_syncHandler "ns/a" "ns" "a" None
              (start (cluster_with [] [owned_a])) owned_a
              (cluster_with [] [owned_a])
              (cluster_with [] [created owned_a]))
    as (_ & Hsync & _).
  - reflexivity.
  - reflexivity.
  - unfold deletion_requested. simpl. discriminate.
  - apply list_elem_of_here.
  - reflexivity.
  - exact Hsync.
Defined.

(** ** A failed sync in the worker (C2) *)

(** C2, as the specification states it, fails: when the read of the
    object fails, [syncHandler] returns an error, and the worker step ends
    without any [AddRateLimited]; the key is in the queue no more. *)
Lemma failed_sync_is_not_requeued :
  let c := mkCluster [ItemString "ns/a"] false [owned_a]
                     (Some read_failure) None (Some true) true in
  exists s0 w1 w',
    workqueue_Get c = (Some (ItemString "ns/a", false), s0) /\
    syncHandler "ns/a" (mkWorld [QGet] s0) = (Returns (Some read_failure), w1) /\
    processNextWorkItem (start c) = (Returns false, w') /\
    (QAddRateLimited (ItemString "ns/a") ∉ trace w') /\
    pending (env w') = [].
Proof.
  intros c.
  exists (snd (workqueue_Get c)).
  exists (snd (syncHandler "ns/a" (mkWorld [QGet] (snd (workqueue_Get c))))).
  exists (snd (processNextWorkItem (start c))).
  split; [vm_compute; reflexivity |]. split; [vm_compute; reflexivity |].
  split; [vm_compute; reflexivity |]. split; [| vm_compute; reflexivity].
  vm_compute. intros Hin.
  repeat (apply elem_of_cons in Hin as [Hin | Hin]; [discriminate |]).
  inversion Hin.
Qed.

Section FailedSync.

Context {Env : Type} `{Collaborators Env}.

(** C2, amended: for a key pulled from the queue, when [syncHandler]
    returns an error the worker does not put the key back: after [Get] its
    only call on the queue is [Done] (no [AddRateLimited], no [Forget]), it
    reports the wrapped error and the step returns false.  When
    [syncHandler] returns nil the worker calls [Forget], then [Done], and
    the step returns true; so [Forget] is called only on success. *)
Theorem failed_sync_is_dropped (w : World Env) key s0 r w2 :
  workqueue_Get (env w) = (Some (ItemString key, false), s0) ->
  syncHandler key (mkWorld (trace w ++ [QGet]) s0) = (Returns r, w2) ->
  exists evs,
    trace w2 = trace w ++ [QGet] ++ evs /\
    Forall (fun e => is_queue_call e = false) evs /\
    processNextWorkItem w =
      match r with
      | Some e =>
          (Returns false,
           mkWorld (trace w ++ [QGet] ++ evs ++
                      [QDone (ItemString key);
                       HandleError ("error syncing '" +:+ key +:+ "':" +:+ Error e)])
                   (workqueue_Done (ItemString key) (env w2)))
      | None =>
          (Returns true,
           mkWorld (trace w ++ [QGet] ++ evs ++
                      [QForget (ItemString key); QDone (ItemString key)])
                   (workqueue_Done (ItemString key)
                      (workqueue_Forget (ItemString key) (env w2))))
      end.
Proof.
  intros Hget Hsync.
  pose proof (syncHandler_quiet key (mkWorld (trace w ++ [QGet]) s0)) as Hq.
  rewrite Hsync in Hq. destruct Hq as (evs & Htr & Hquiet). simpl in Htr.
  exists evs. split; [rewrite Htr, <- app_assoc; reflexivity |].
  split; [assumption |].
  rewrite (processNextWorkItem_string w key s0 r w2 Hget Hsync).
  destruct r; rewrite Htr, <- !app_assoc; reflexivity.
Qed.

End FailedSync.

Lemma failed_sync_is_dropped_witness :
  exists evs,
    Forall (fun e => is_queue_call e = false) evs /\
    processNextWorkItem
      (start (mkCluster [ItemString "ns/a"] false [owned_a]
                        (Some read_failure) None (Some true) true)) =
      (Returns false,
       mkWorld ([QGet] ++ evs ++
                  [QDone (ItemString "ns/a");
                   HandleError ("error syncing '" +:+ "ns/a" +:+ "':" +:+
                                Error read_failure)])
               (mkCluster [] false [owned_a]
                          (Some read_failure) None (Some true) true)).
Proof.
  destruct (failed_sync_is_dropped
              (start (mkCluster [ItemString "ns/a"] false [owned_a]
                                (Some read_failure) None (Some true) true))
              "ns/a"
              (mkCluster [] false [owned_a]
                         (Some read_failure) None (Some true) true)
              (Some read_failure)
              (mkWorld [QGet; ListerGet "ns" "a";
                        HandleError "failed to get astro by: ns/a"]
                       (mkCluster [] false [owned_a]
                                  (Some read_failure) None (Some true) true)))
    as (evs & _ & Hquiet & Hstep).
  - reflexivity.
  - reflexivity.
  - exists evs. split; [exact Hquiet | exact Hstep].
Defined.

(** ** A malformed key (C5) *)

Section MalformedKey.

Context {Env : Type} `{Collaborators Env}.

(** After the report on a malformed key there is no return: the handler
    goes on to read the object with empty namespace and name, and what
    it returns is decided by that read. *)
Lemma malformed_key_falls_through key perr (w : World Env) e s1 :
  cache.SplitMetaNamespaceKey key = (EmptyString, EmptyString, Some perr) ->
  lister_Get EmptyString EmptyString (env w) = (inr e, s1) ->
  syncHandler key w =
    if IsNotFound e then
      (Returns None,
       mkWorld (trace w ++ [HandleError ("invalid respirce key:" +:+ key);
                            ListerGet EmptyString EmptyString]) s1)
    else
      (Returns (Some e),
       mkWorld (trace w ++ [HandleError ("invalid respirce key:" +:+ key);
                            ListerGet EmptyString EmptyString;
                            HandleError "failed to get astro by: /"]) s1).
Proof.
  intros Hk Hl. destruct (IsNotFound e) eqn:Hnf.
  - now rewrite (syncHandler_not_found key _ _ _ w e s1 Hk Hl Hnf).
  - now rewrite (syncHandler_read_error key _ _ _ w e s1 Hk Hl Hnf).
Qed.

End MalformedKey.

(** C5 does not hold of the code: the key [a/b/c] is rejected by the key
    parser and reported, but [syncHandler] does not stop there.  With a
    lister whose read fails it returns that error, and the worker step
    treats the key as failed. *)
Theorem malformed_key_is_not_handled :
  let c := mkCluster [ItemString "a/b/c"] false [] (Some read_failure) None
                     (Some true) true in
  let c' := mkCluster [] false [] (Some read_failure) None (Some true) true in
  cache.SplitMetaNamespaceKey "a/b/c" =
    (EmptyString, EmptyString, Some (Errorf "unexpected key format: a/b/c")) /\
  syncHandler "a/b/c" (start c') =
    (Returns (Some read_failure),
     mkWorld [HandleError "invalid respirce key:a/b/c";
              ListerGet EmptyString EmptyString;
              HandleError "failed to get astro by: /"] c') /\
  processNextWorkItem (start c) =
    (Returns false,
     mkWorld [QGet;
              HandleError "invalid respirce key:a/b/c";
              ListerGet EmptyString EmptyString;
              HandleError "failed to get astro by: /";
              QDone (ItemString "a/b/c");
              HandleError "error syncing 'a/b/c':etcdserver: request timed out"]
             c').
Proof. repeat split; vm_compute; reflexivity. Qed.

(** ** Deletion handling without the token (C6) *)

Section Deletion.

Context {Env : Type} `{Collaborators Env}.

(** C6: on an object whose finalizers do not hold the token,
    [syncDelete] persists the object with its finalizers unchanged and,
    the persist succeeding, returns no error; run a second time on the
    same object it does the same. *)
Theorem syncDelete_tolerates_absent_token (astro : Astro) (w : World Env) s1 :
  AstroFinalizer ∉ Finalizers astro ->
  astros_Update (Namespace astro) astro (env w) = (None, s1) ->
  let deleting := Info ("Sync delete astro: " +:+ Name astro +:+ nl) in
  let persist := ClientUpdate (Namespace astro) astro in
  let w1 := mkWorld (trace w ++ [deleting; persist]) s1 in
  remove_finalizer (Finalizers astro) = inr (Finalizers astro) /\
  syncDelete astro w = (Returns (astro, None), w1) /\
  (forall s2,
     astros_Update (Namespace astro) astro s1 = (None, s2) ->
     syncDelete astro w1 =
       (Returns (astro, None),
        mkWorld (trace w ++ [deleting; persist; deleting; persist]) s2)).
Proof.
  intros Hnot Hup deleting persist w1.
  pose proof (remove_finalizer_absent _ Hnot) as Hloop.
  split; [exact Hloop |]. split.
  - rewrite (syncDelete_removed astro w (Finalizers astro) None s1 Hloop);
      rewrite set_Finalizers_same; [reflexivity | exact Hup].
  - intros s2 Hup2.
    rewrite (syncDelete_removed astro w1 (Finalizers astro) None s2 Hloop);
      rewrite set_Finalizers_same; [| exact Hup2].
    simpl. rewrite <- app_assoc. reflexivity.
Qed.

End Deletion.

Lemma syncDelete_tolerates_absent_token_witness :
  let w := start (cluster_with [] [foreign_a]) in
  (AstroFinalizer ∉ Finalizers foreign_a) /\
  syncDelete foreign_a w =
    (Returns (foreign_a, None),
     mkWorld [Info ("Sync delete astro: " +:+ "a" +:+ nl);
              ClientUpdate "ns" foreign_a]
             (cluster_with [] [foreign_a])) /\
  syncDelete foreign_a (snd (syncDelete foreign_a w)) =
    (Returns (foreign_a, None),
     mkWorld [Info ("Sync delete astro: " +:+ "a" +:+ nl);
              ClientUpdate "ns" foreign_a;
              Info ("Sync delete astro: " +:+ "a" +:+ nl);
              ClientUpdate "ns" foreign_a]
             (cluster_with [] [foreign_a])).
Proof.
  intros w.
  assert (Hnot : AstroFinalizer ∉ Finalizers foreign_a).
  { intros Hin. apply list_elem_of_singleton in Hin. discriminate. }
  destruct (syncDelete_tolerates_absent_token foreign_a w
              (cluster_with [] [foreign_a]))
    as (_ & Hfirst & Hsecond); [exact Hnot | reflexivity |].
  split; [exact Hnot |]. split; [exact Hfirst |].
  rewrite Hfirst. apply (Hsecond (cluster_with [] [foreign_a])). reflexivity.
Defined.

(** ** The finalizer loop on a doubled token (C10) *)

(** C10 does not hold of the code: on the finalizers [token; token] the
    first round of the loop shrinks the field to length one, and the
    second round, which still finds the token in the backing array at
    index one, assigns to index one of the field: an index out of range.
    [syncDelete] panics before it persists anything, and the panic passes
    through the worker step, whose deferred [Done] still runs. *)
Theorem syncDelete_panics_on_doubled_token :
  let c := cluster_with [ItemString "ns/a"] [doubled_a] in
  Finalizers doubled_a = [AstroFinalizer; AstroFinalizer] /\
  remove_finalizer (Finalizers doubled_a) = inl (IndexOutOfRange 1 1) /\
  syncDelete doubled_a (start c) =
    (Panics (IndexOutOfRange 1 1),
     mkWorld [Info ("Sync delete astro: " +:+ "a" +:+ nl)] c) /\
  processNextWorkItem (start c) =
    (Panics (IndexOutOfRange 1 1),
     mkWorld [QGet; ListerGet "ns" "a";
              Info ("Sync delete astro: " +:+ "a" +:+ nl);
              QDone (ItemString "ns/a")]
             (cluster_with [] [doubled_a])).
Proof. repeat split; vm_compute; reflexivity. Qed.

(** ** The driver *)

Section Driver.

Context {Env : Type} `{Collaborators Env}.

Lemma start_workers_run (n : nat) (w : World Env) :
  start_workers n w =
    (Returns tt, mkWorld (trace w ++ repeat GoWorker n) (env w)).
Proof.
  revert w. induction n as [| n IH]; intros w; simpl.
  - unfold ret. rewrite app_nil_r. now destruct w.
  - unfold bind, emit. simpl. rewrite IH. simpl.
    rewrite <- app_assoc. reflexivity.
Qed.

(** What [Run] does, by the answers of the cache sync and of the stop
    channel. *)
Lemma Run_cases (thread : Z) (w : World Env) ans s1 :
  cache_WaitForCacheSync (env w) = (ans, s1) ->
  Run thread w =
    match ans with
    | None => (Blocks, mkWorld (trace w ++ Run_prologue) s1)
    | Some false =>
        (Returns (Some (Errorf "failed to wati for caches to sync")),
         mkWorld (trace w ++ Run_prologue ++ [QShuttingDown])
                 (snd (workqueue_ShuttingDown s1)))
    | Some true =>
        if stopCh_fires s1 then
          (Returns None,
           mkWorld (trace w ++ Run_prologue ++ [Info "Starting workers"] ++
                      repeat GoWorker (Z.to_nat thread) ++
                      [Info "Started workers"; RecvStop;
                       Info "Shutting down workers"; QShuttingDown])
                   (snd (workqueue_ShuttingDown s1)))
        else
          (Blocks,
           mkWorld (trace w ++ Run_prologue ++ [Info "Starting workers"] ++
                      repeat GoWorker (Z.to_nat thread) ++
                      [Info "Started workers"; RecvStop])
                   s1)
    end.
Proof.
  intros Hsync.
  unfold Run, defer, HandleCrash, bind, emit, blocking_call, call, ret. simpl.
  rewrite Hsync. destruct ans as [[|] |]; simpl.
  - rewrite start_workers_run. unfold recv_stop. simpl.
    destruct (stopCh_fires s1); simpl.
    + destruct (workqueue_ShuttingDown s1) as [b s2]; simpl.
      f_equal. f_equal. rewrite <- !app_assoc. reflexivity.
    + f_equal. f_equal. rewrite <- !app_assoc. reflexivity.
  - destruct (workqueue_ShuttingDown s1) as [b s2]; simpl.
    f_equal. f_equal. rewrite <- !app_assoc. reflexivity.
  - f_equal. f_equal. rewrite <- !app_assoc. reflexivity.
Qed.

End Driver.

Section DriverProperties.

Context {Env : Type} `{Collaborators Env}.

Lemma Forall_repeat {A : Type} (P : A -> Prop) (x : A) (n : nat) :
  P x -> Forall P (repeat x n).
Proof. intros Hx. induction n; simpl; constructor; assumption. Qed.

(** Whatever the collaborators answer, [ShutDown] is not among the calls
    of [Run], and no worker is started unless the cache sync succeeded. *)
Lemma Run_events (thread : Z) (w : World Env) :
  exists evs,
    trace (snd (Run thread w)) = trace w ++ evs /\
    Forall (fun e => e <> QShutDown) evs /\
    (fst (cache_WaitForCacheSync (env w)) <> Some true ->
     Forall (fun e => e <> GoWorker) evs).
Proof.
  destruct (cache_WaitForCacheSync (env w)) as [ans s1] eqn:Hsync.
  rewrite (Run_cases thread w ans s1 Hsync).
  unfold Run_prologue.
  destruct ans as [[|] |]; [destruct (stopCh_fires s1) | |]; simpl;
    (eexists; split; [reflexivity |]; split;
     [ repeat first [ apply Forall_app; split
                    | apply Forall_repeat
                    | apply Forall_cons; split
                    | apply Forall_nil ];
       first [ exact I | discriminate ]
     | intros Hne; simpl in Hne; try congruence;
       repeat first [ apply Forall_cons; split | apply Forall_nil ];
       first [ exact I | discriminate ] ]).
Qed.

(** C8: [Run] returns an error exactly when the initial cache sync fails,
    and then it has started no worker; when the sync succeeds it starts
    the workers, waits on the stop channel, and returns nil once the
    signal has fired (and does not return while it has not). *)
Theorem Run_fails_iff_cache_sync_fails (thread : Z) (w : World Env) ans s1 :
  cache_WaitForCacheSync (env w) = (ans, s1) ->
  ((exists e, fst (Run thread w) = Returns (Some e)) <-> ans = Some false) /\
  (ans = Some false ->
     exists evs,
       trace (snd (Run thread w)) = trace w ++ evs /\
       Forall (fun e => e <> GoWorker) evs) /\
  (ans = Some true ->
     fst (Run thread w) =
       (if stopCh_fires s1 then Returns None else Blocks) /\
     exists evs,
       trace (snd (Run thread w)) =
         trace w ++ Run_prologue ++ [Info "Starting workers"] ++
           repeat GoWorker (Z.to_nat thread) ++
           [Info "Started workers"; RecvStop] ++ evs /\
       (stopCh_fires s1 = false -> evs = [])).
Proof.
  intros Hsync. pose proof (Run_cases thread w ans s1 Hsync) as Hrun.
  split; [| split].
  - rewrite Hrun. destruct ans as [[|] |]; [destruct (stopCh_fires s1) | |];
      simpl; split;
      first [ intros [e He]; discriminate
            | intros Heq; discriminate
            | intros _; eauto ].
  - intros ->. destruct (Run_events thread w) as (evs & Htr & _ & Hgo).
    exists evs. split; [assumption |]. apply Hgo. rewrite Hsync. discriminate.
  - intros ->. rewrite Hrun. destruct (stopCh_fires s1); simpl.
    + split; [reflexivity |]. eexists. split; [reflexivity | discriminate].
    + split; [reflexivity |]. exists []. split; [reflexivity | reflexivity].
Qed.

End DriverProperties.

Lemma Run_fails_iff_cache_sync_fails_witness :
  fst (Run 2 (start (cluster_with [] []))) = Returns None /\
  (exists e,
     fst (Run 2 (start (mkCluster [] false [] None None (Some false) true))) =
       Returns (Some e)).
Proof.
  split.
  - destruct (Run_fails_iff_cache_sync_fails 2 (start (cluster_with [] []))
                (Some true) (cluster_with [] []))
      as (_ & _ & Hok); [reflexivity |].
    destruct (Hok eq_refl) as [Hret _]. exact Hret.
  - destruct (Run_fails_iff_cache_sync_fails 2
                (start (mkCluster [] false [] None None (Some false) true))
                (Some false)
                (mkCluster [] false [] None None (Some false) true))
      as ((_ & Herr) & _); [reflexivity |].
    exact (Herr eq_refl).
Defined.

(** ** Shutdown (C7) *)

(** C7 does not hold of the code: the call that [Run] defers is
    [ShuttingDown], which only reports whether the queue is shutting
    down.  With one worker, a synced cache and a stop signal that fires,
    [Run] returns nil and its last call is that query; [ShutDown] is
    called in no run at all, so a worker blocked in [Get] is not
    released. *)
Theorem Run_never_shuts_the_queue_down :
  Run 1 (start (cluster_with [] [])) =
    (Returns None,
     mkWorld [Info "Starting Astro control loop";
              Info "Waiting for informer caches to sync";
              WaitForCacheSync;
              Info "Starting workers";
              GoWorker;
              Info "Started workers";
              RecvStop;
              Info "Shutting down workers";
              QShuttingDown]
             (cluster_with [] [])) /\
  shutting_down (env (snd (Run 1 (start (cluster_with [] []))))) = false /\
  (forall (Env : Type) (C : Collaborators Env) (thread : Z) (w : World Env),
     exists evs,
       trace (snd (Run thread w)) = trace w ++ evs /\
       Forall (fun e => e <> QShutDown) evs).
Proof.
  split; [vm_compute; reflexivity |]. split; [vm_compute; reflexivity |].
  intros Env C thread w.
  destruct (Run_events thread w) as (evs & Htr & Hno & _). eauto.
Qed.

(** ** The watch handlers (C9) *)

Lemma MetaNamespaceKeyFunc_Astro (a : Astro) :
  cache.MetaNamespaceKeyFunc (ObjAstro a) = (spec_key a, None).
Proof.
  unfold cache.MetaNamespaceKeyFunc, spec_key.
  destruct (Namespace a); reflexivity.
Qed.

Section WatchHandlers.

Context {Env : Type} `{Collaborators Env}.

Ltac rate_limited :=
  first
    [ exists []; split; [simpl; rewrite app_nil_r; reflexivity | constructor]
    | eexists; split;
      [ simpl; rewrite <- ?app_assoc; simpl; reflexivity
      | repeat constructor; simpl; intros; first [ discriminate | eauto ] ] ].

Lemma addAstro_enqueues (item : Obj) (w : World Env) :
  enqueues_rate_limited w (snd (addAstro item w)).
Proof.
  unfold addAstro.
  destruct (cache.MetaNamespaceKeyFunc item) as [key [err |]];
    unfold bind, emit, call_; rate_limited.
Qed.

Lemma deleteAstro_enqueues (item : Obj) (w : World Env) :
  enqueues_rate_limited w (snd (deleteAstro item w)).
Proof.
  unfold deleteAstro.
  destruct (cache.DeletionHandlingMetaNamespaceKeyFunc item) as [key [err |]];
    unfold bind, emit, call_; rate_limited.
Qed.

Lemma updateAstro_enqueues (old new : Obj) (w : World Env) :
  enqueues_rate_limited w (snd (updateAstro old new w)).
Proof.
  unfold updateAstro, assert_Astro.
  destruct old as [o | | |]; try (unfold bind, panic; rate_limited).
  destruct new as [n | | |]; try (unfold bind, panic, ret; rate_limited).
  rewrite MetaNamespaceKeyFunc_Astro.
  unfold bind, ret, emit, call_. simpl.
  destruct (String.eqb (ResourceVersion o) (ResourceVersion n)); rate_limited.
Qed.

(** C9: the update handler enqueues nothing when the old and the new
    object have the same resource version, and the key of the new object
    when the versions differ; and whatever the add, update and delete
    handlers put on the queue, they put there with [AddRateLimited]. *)
Theorem updateAstro_suppresses_unchanged_version
    (oldItem newItem : Astro) (w : World Env) :
  (ResourceVersion oldItem = ResourceVersion newItem ->
     updateAstro (ObjAstro oldItem) (ObjAstro newItem) w = (Returns tt, w)) /\
  (ResourceVersion oldItem <> ResourceVersion newItem ->
     updateAstro (ObjAstro oldItem) (ObjAstro newItem) w =
       (Returns tt,
        mkWorld (trace w ++ [Info "Enqueue the astro crd for updating";
                             QAddRateLimited (ItemString (spec_key newItem))])
                (workqueue_AddRateLimited (ItemString (spec_key newItem)) (env w)))) /\
  (forall old new item : Obj,
     enqueues_rate_limited w (snd (updateAstro old new w)) /\
     enqueues_rate_limited w (snd (addAstro item w)) /\
     enqueues_rate_limited w (snd (deleteAstro item w))).
Proof.
  split; [| split].
  - intros Heq. unfold updateAstro, assert_Astro, bind, ret. simpl.
    apply String.eqb_eq in Heq. rewrite Heq. reflexivity.
  - intros Hne. unfold updateAstro, assert_Astro.
    rewrite MetaNamespaceKeyFunc_Astro. unfold bind, ret, emit, call_. simpl.
    apply String.eqb_neq in Hne. rewrite Hne. simpl.
    rewrite <- app_assoc. reflexivity.
  - intros old new item.
    auto using updateAstro_enqueues, addAstro_enqueues, deleteAstro_enqueues.
Qed.

End WatchHandlers.

Lemma updateAstro_suppresses_unchanged_version_witness :
  let w := start (cluster_with [] [owned_a]) in
  updateAstro (ObjAstro owned_a) (ObjAstro owned_a) w = (Returns tt, w) /\
  updateAstro (ObjAstro fresh_a) (ObjAstro owned_a) w =
    (Returns tt,
     mkWorld [Info "Enqueue the astro crd for updating";
              QAddRateLimited (ItemString "ns/a")]
             (cluster_with [ItemString "ns/a"] [owned_a])).
Proof.
  intros w. split.
  - destruct (updateAstro_suppresses_unchanged_version owned_a owned_a w)
      as (Hsame & _ & _).
    exact (Hsame eq_refl).
  - destruct (updateAstro_suppresses_unchanged_version fresh_a owned_a w)
      as (_ & Hdiff & _).
    apply Hdiff. discriminate.
Defined.

(** ** The life of one object

    The object [ns/a] arrives without finalizers: the first sync persists
    it with the token as its only finalizer.  Once deletion is requested,
    the next sync persists it with no finalizer left. *)
Example first_sync_adds_the_token :
  syncHandler "ns/a" (start (cluster_with [] [fresh_a])) =
    (Returns None,
     mkWorld [ListerGet "ns" "a";
              Info ("Sync create astro: " +:+ "a" +:+ nl);
              ClientUpdate "ns" (mkAstro "ns" "a" "1" [AstroFinalizer] None)]
             (cluster_with [] [mkAstro "ns" "a" "1" [AstroFinalizer] None])).
Proof. vm_compute. reflexivity. Qed.

Example sync_after_deletion_request_removes_the_token :
  let deleting := mkAstro "ns" "a" "2" [AstroFinalizer] (Some deletion_time) in
  let released := mkAstro "ns" "a" "2" [] (Some deletion_time) in
  syncHandler "ns/a" (start (cluster_with [] [deleting])) =
    (Returns None,
     mkWorld [ListerGet "ns" "a";
              Info ("Sync delete astro: " +:+ "a" +:+ nl);
              ClientUpdate "ns" released]
             (cluster_with [] [released])).
Proof. vm_compute. reflexivity. Qed.

(** * Further properties of the controller *)

(** ** What the finalizer loop keeps *)

Lemma others_app (fs gs : list string) :
  others (fs ++ gs) = others fs ++ others gs.
Proof. unfold others. apply filter_app. Qed.

Lemma others_token (fs : list string) :
  others (AstroFinalizer :: fs) = others fs.
Proof. unfold others. rewrite filter_cons. now rewrite decide_False by auto. Qed.

Lemma others_absent (fs : list string) :
  AstroFinalizer ∉ fs -> others fs = fs.
Proof.
  intros Hnot. unfold others. induction fs as [| f fs IH]; [reflexivity |].
  apply not_elem_of_cons in Hnot as [Hne Hnot].
  rewrite filter_cons, decide_True by congruence. f_equal. now apply IH.
Qed.

Lemma others_free (fs : list string) : AstroFinalizer ∉ others fs.
Proof.
  unfold others. intros Hin. apply list_elem_of_filter in Hin as [Hne _].
  now apply Hne.
Qed.

(** One round of the loop that removes: the last element of the field
    takes the place of the token and the field loses its last slot; the
    finalizers other than the token stay, up to their order. *)
Lemma swap_remove_others (arr : list string) (i last : nat) (x : string) :
  arr !! i = Some AstroFinalizer ->
  arr !! last = Some x ->
  i <= last ->
  others (take last (<[i := x]> arr)) ≡ₚ others (take (S last) arr).
Proof.
  intros Hi Hlast Hle.
  rewrite (take_S_r arr last x Hlast), others_app.
  destruct (decide (i = last)) as [-> | Hne].
  - rewrite take_insert_ge by lia.
    assert (x = AstroFinalizer) by congruence. subst x.
    rewrite others_token. simpl. now rewrite app_nil_r.
  - rewrite take_insert_lt by lia.
    assert (Hti : take last arr !! i = Some AstroFinalizer)
      by (rewrite lookup_take_lt by lia; assumption).
    pose proof (lookup_lt_Some _ _ _ Hti) as Hlen.
    rewrite insert_take_drop by assumption.
    rewrite <- (take_drop_middle (take last arr) i AstroFinalizer Hti) at 3.
    rewrite !others_app.
    change (x :: drop (S i) (take last arr))
      with ([x] ++ drop (S i) (take last arr)).
    change (AstroFinalizer :: drop (S i) (take last arr))
      with ([AstroFinalizer] ++ drop (S i) (take last arr)).
    rewrite !others_app.
    change (others [AstroFinalizer]) with (@nil string). simpl.
    rewrite <- app_assoc. apply Permutation_app_head.
    apply Permutation_app_comm.
Qed.

Lemma remove_loop_keeps_others (m : nat) :
  forall (i : nat) (arr : list string) (len : nat) arr' len',
    remove_loop (seq i m) arr len = inr (arr', len') ->
    others (take len' arr') ≡ₚ others (take len arr).
Proof.
  induction m as [| m IH]; intros i arr len arr' len' Hrun.
  - simpl in Hrun. now injection Hrun as <- <-.
  - simpl in Hrun.
    destruct (arr !! i) as [f |] eqn:Hf; [| discriminate].
    destruct (String.eqb f AstroFinalizer) eqn:Htok.
    + apply token_eqb in Htok. subst f.
      destruct len as [| last]; [discriminate |].
      destruct (arr !! last) as [x |] eqn:Hx; [| discriminate].
      destruct (S last <=? i) eqn:Hle; [discriminate |].
      apply Nat.leb_gt in Hle.
      rewrite (IH _ _ _ _ _ Hrun).
      apply swap_remove_others; [assumption | assumption | lia].
    + apply (IH _ _ _ _ _ Hrun).
Qed.

(** Whenever the loop comes to its end, what it leaves is the finalizers
    other than the token, up to their order. *)
Lemma remove_finalizer_keeps_others (fs fs' : list string) :
  remove_finalizer fs = inr fs' -> fs' ≡ₚ others fs.
Proof.
  intros Hrun. pose proof (remove_finalizer_sound fs fs' Hrun) as Hfree.
  unfold remove_finalizer in Hrun.
  destruct (remove_loop (seq 0 (length fs)) fs (length fs))
    as [p | [arr len]] eqn:Hloop; [discriminate |].
  injection Hrun as <-.
  rewrite <- (others_absent _ Hfree).
  rewrite (remove_loop_keeps_others _ _ _ _ _ _ Hloop).
  now rewrite firstn_all.
Qed.

(** Rounds that do not find the token change nothing. *)
Lemma remove_loop_skip (idxs1 idxs2 : list nat) (arr : list string) (len : nat) :
  Forall (fun i => exists f, arr !! i = Some f /\ f <> AstroFinalizer) idxs1 ->
  remove_loop (idxs1 ++ idxs2) arr len = remove_loop idxs2 arr len.
Proof.
  induction 1 as [| i idxs1 (f & Hf & Hne) _ IH]; [reflexivity |].
  simpl. rewrite Hf. apply token_eqb_false in Hne. now rewrite Hne.
Qed.

Lemma token_free_prefix (l1 rest : list string) :
  AstroFinalizer ∉ l1 ->
  Forall (fun i => exists f, (l1 ++ rest) !! i = Some f /\ f <> AstroFinalizer)
         (seq 0 (length l1)).
Proof.
  intros Hnot. apply Forall_seq. intros j Hj.
  destruct (lookup_lt_is_Some_2 l1 j) as [f Hf]; [lia |].
  exists f. split; [rewrite lookup_app_l by lia; assumption |].
  intros ->. apply Hnot. eapply list_elem_of_lookup_2, Hf.
Qed.

(** The loop on a list that holds the token once, not at the end: the
    last finalizer moves to the place of the token. *)
Lemma remove_finalizer_swap (l1 l2 : list string) (y : string) :
  AstroFinalizer ∉ l1 -> AstroFinalizer ∉ l2 -> y <> AstroFinalizer ->
  remove_finalizer (l1 ++ AstroFinalizer :: l2 ++ [y]) = inr (l1 ++ y :: l2).
Proof.
  intros H1 H2 Hy. unfold remove_finalizer.
  set (fs := l1 ++ AstroFinalizer :: l2 ++ [y]).
  assert (Hlen : length fs = S (length l1 + S (length l2))).
  { unfold fs. rewrite length_app. simpl. rewrite length_app. simpl. lia. }
  assert (Hseq : seq 0 (length fs) =
                 seq 0 (length l1) ++
                 length l1 :: seq (S (length l1)) (S (length l2))).
  { rewrite Hlen.
    replace (S (length l1 + S (length l2)))
      with (length l1 + S (S (length l2))) by lia.
    rewrite seq_app. reflexivity. }
  rewrite Hseq, remove_loop_skip by (apply token_free_prefix; assumption).
  rewrite Hlen.
  assert (Htok : fs !! length l1 = Some AstroFinalizer)
    by (unfold fs; apply list_lookup_middle; reflexivity).
  assert (Hlast : fs !! (length l1 + S (length l2)) = Some y).
  { unfold fs. rewrite lookup_app_r by lia.
    replace (length l1 + S (length l2) - length l1) with (S (length l2)) by lia.
    simpl. rewrite lookup_app_r by lia.
    replace (length l2 - length l2) with 0 by lia. reflexivity. }
  cbn [remove_loop]. rewrite Htok, String.eqb_refl, Hlast.
  assert (Hleb : (S (length l1 + S (length l2)) <=? length l1) = false)
    by (apply Nat.leb_gt; lia).
  rewrite Hleb.
  assert (Hfs' : <[length l1 := y]> fs = (l1 ++ y :: l2) ++ [y]).
  { unfold fs. rewrite insert_app_r_alt by lia.
    replace (length l1 - length l1) with 0 by lia. simpl.
    now rewrite <- app_assoc. }
  rewrite Hfs'.
  rewrite remove_loop_absent.
  - rewrite take_app_length'; [reflexivity |].
    rewrite length_app. simpl. lia.
  - intros Hin. apply elem_of_app in Hin as [Hin | Hin].
    + apply elem_of_app in Hin as [Hin | Hin]; [now apply H1 |].
      apply elem_of_cons in Hin as [Heq | Hin]; [congruence | now apply H2].
    + apply list_elem_of_singleton in Hin. congruence.
  - apply Forall_seq. intros j Hj. rewrite !length_app. simpl. lia.
Qed.

(** The loop on a list that holds the token once, at the end. *)
Lemma remove_finalizer_last (l1 : list string) :
  AstroFinalizer ∉ l1 ->
  remove_finalizer (l1 ++ [AstroFinalizer]) = inr l1.
Proof.
  intros H1.
  destruct (remove_finalizer_single (l1 ++ [AstroFinalizer])) as (fs' & Hrun & _).
  { rewrite occurrences_app. apply occurrences_absent in H1. rewrite H1.
    reflexivity. }
  rewrite Hrun. f_equal.
  unfold remove_finalizer in Hrun.
  rewrite length_app in Hrun. simpl in Hrun.
  replace (length l1 + 1) with (length l1 + 1) in Hrun by reflexivity.
  rewrite seq_app in Hrun. simpl in Hrun.
  rewrite remove_loop_skip in Hrun by (apply token_free_prefix; assumption).
  simpl in Hrun.
  rewrite list_lookup_middle in Hrun by reflexivity.
  rewrite String.eqb_refl in Hrun.
  replace (length l1 + 1) with (S (length l1)) in Hrun by lia.
  rewrite list_lookup_middle in Hrun by reflexivity.
  assert (Hleb : (S (length l1) <=? length l1) = false)
    by (apply Nat.leb_gt; lia).
  rewrite Hleb in Hrun. injection Hrun as <-.
  rewrite take_insert_ge by lia. apply take_app_length.
Qed.


(** ** Deletion handling, in general *)

Section DeletionRuns.

Context {Env : Type} `{Collaborators Env}.

(** When [syncDelete] returns, its loop has come to its end, and the
    object it hands back is the one it sent to the store. *)
Lemma syncDelete_returns_inv (astro : Astro) (w : World Env) a' err w' :
  syncDelete astro w = (Returns (a', err), w') ->
  exists fs,
    remove_finalizer (Finalizers astro) = inr fs /\
    a' = set_Finalizers fs astro /\
    trace w' =
      trace w ++ [Info ("Sync delete astro: " +:+ Name astro +:+ nl);
                  ClientUpdate (Namespace astro) a'] ++ persist_report err.
Proof.
  intros Hrun.
  destruct (remove_finalizer (Finalizers astro)) as [p | fs] eqn:Hloop.
  - rewrite (syncDelete_panics astro w p Hloop) in Hrun. discriminate.
  - destruct (astros_Update (Namespace astro) (set_Finalizers fs astro) (env w))
      as [err' s2] eqn:Hup.
    rewrite (syncDelete_removed astro w fs err' s2 Hloop Hup) in Hrun.
    injection Hrun as <- <- <-. exists fs. auto.
Qed.

(** X1: whenever [syncDelete] returns, with or without an error from the
    persist, the object it sent to the store holds no token, and holds
    every other finalizer of the object as often as before (their order
    may have changed); namespace, name, resource version and deletion
    timestamp are untouched. *)
Theorem syncDelete_persists_the_other_finalizers
    (astro : Astro) (w : World Env) a' err w' :
  syncDelete astro w = (Returns (a', err), w') ->
  (AstroFinalizer ∉ Finalizers a') /\
  Finalizers a' ≡ₚ others (Finalizers astro) /\
  a' = set_Finalizers (Finalizers a') astro /\
  trace w' =
    trace w ++ [Info ("Sync delete astro: " +:+ Name astro +:+ nl);
                ClientUpdate (Namespace astro) a'] ++ persist_report err.
Proof.
  intros Hrun.
  destruct (syncDelete_returns_inv astro w a' err w' Hrun)
    as (fs & Hloop & -> & Htr).
  simpl. repeat split.
  - exact (remove_finalizer_sound _ _ Hloop).
  - exact (remove_finalizer_keeps_others _ _ Hloop).
  - exact Htr.
Qed.

(** X2: on an object that holds the token once and not in the last
    place, [syncDelete] does not keep the order of the finalizers: the
    last finalizer is moved to the place of the token.  The object sent
    to the store has exactly that list. *)
Theorem syncDelete_moves_the_last_finalizer
    (astro : Astro) (w : World Env) (l1 l2 : list string) (y : string) :
  Finalizers astro = l1 ++ AstroFinalizer :: l2 ++ [y] ->
  AstroFinalizer ∉ l1 -> AstroFinalizer ∉ l2 -> y <> AstroFinalizer ->
  let a' := set_Finalizers (l1 ++ y :: l2) astro in
  let (err, s2) := astros_Update (Namespace astro) a' (env w) in
  syncDelete astro w =
    (Returns (a', err),
     mkWorld (trace w ++ [Info ("Sync delete astro: " +:+ Name astro +:+ nl);
                          ClientUpdate (Namespace astro) a'] ++
                persist_report err)
             s2).
Proof.
  intros Hfs H1 H2 Hy a'.
  destruct (astros_Update (Namespace astro) a' (env w)) as [err s2] eqn:Hup.
  apply syncDelete_removed; [| exact Hup].
  rewrite Hfs. now apply remove_finalizer_swap.
Qed.

(** X3: deletion handling undoes creation handling.  On the object that
    [syncCreate] makes of an object without the token, the loop of
    [syncDelete] removes the appended token and nothing else, so the
    object sent to the store is the original one. *)
Theorem syncDelete_undoes_syncCreate (astro : Astro) (w : World Env) :
  AstroFinalizer ∉ Finalizers astro ->
  let (err, s2) := astros_Update (Namespace astro) astro (env w) in
  syncDelete (created astro) w =
    (Returns (astro, err),
     mkWorld (trace w ++ [Info ("Sync delete astro: " +:+ Name astro +:+ nl);
                          ClientUpdate (Namespace astro) astro] ++
                persist_report err)
             s2).
Proof.
  intros Hnot.
  destruct (astros_Update (Namespace astro) astro (env w)) as [err s2] eqn:Hup.
  assert (Hloop : remove_finalizer (Finalizers (created astro)) =
                  inr (Finalizers astro))
    by (apply remove_finalizer_last; assumption).
  assert (Hback : set_Finalizers (Finalizers astro) (created astro) = astro)
    by (destruct astro; reflexivity).
  pose proof (syncDelete_removed (created astro) w (Finalizers astro) err s2 Hloop)
    as Hrun.
  rewrite Hback in Hrun. apply Hrun. exact Hup.
Qed.


(** X5: on an object that holds the token at most once, [syncDelete]
    does not panic: it sends to the store an object without the token and
    returns what the store answers. *)
Theorem syncDelete_is_safe_on_single_token (astro : Astro) (w : World Env) :
  occurrences (Finalizers astro) <= 1 ->
  exists fs,
    (AstroFinalizer ∉ fs) /\
    syncDelete astro w =
      (let (err, s2) :=
         astros_Update (Namespace astro) (set_Finalizers fs astro) (env w) in
       (Returns (set_Finalizers fs astro, err),
        mkWorld (trace w ++
                   [Info ("Sync delete astro: " +:+ Name astro +:+ nl);
                    ClientUpdate (Namespace astro) (set_Finalizers fs astro)] ++
                   persist_report err)
                s2)).
Proof.
  intros Hocc.
  destruct (remove_finalizer_single _ Hocc) as (fs & Hloop & Hfree).
  exists fs. split; [assumption |].
  destruct (astros_Update (Namespace astro) (set_Finalizers fs astro) (env w))
    as [err s2] eqn:Hup.
  now apply syncDelete_removed.
Qed.

End DeletionRuns.

(** ** [syncHandler], branch by branch *)

Section SyncHandlerRuns.

Context {Env : Type} `{Collaborators Env}.

Lemma syncCreate_run (astro : Astro) (w : World Env) err s2 :
  astros_Update (Namespace astro) (created astro) (env w) = (err, s2) ->
  syncCreate astro w =
    (Returns (created astro, err),
     mkWorld (trace w ++ [Info ("Sync create astro: " +:+ Name astro +:+ nl);
                          ClientUpdate (Namespace astro) (created astro)] ++
                persist_report err)
             s2).
Proof.
  intros Hup. destruct err as [e |].
  - now apply syncCreate_persist_fails.
  - now apply syncCreate_appends.
Qed.

Lemma syncHandler_established
    key namespace name perr (w : World Env) astro s1 :
  cache.SplitMetaNamespaceKey key = (namespace, name, perr) ->
  lister_Get namespace name (env w) = (inl astro, s1) ->
  ~ deletion_requested astro ->
  AstroFinalizer ∈ Finalizers astro ->
  syncHandler key w =
    (Returns None,
     mkWorld (trace w ++ report perr key ++
                [ListerGet namespace name;
                 Info ("Sync update astro: " +:+ Name astro +:+ nl)])
             s1).
Proof.
  intros Hk Hl Hlive Htok.
  rewrite (syncHandler_dispatch key namespace name perr w astro s1 Hk Hl).
  rewrite (spec_classify_established astro Hlive Htok).
  unfold returning_error, bind, ret. simpl.
  rewrite <- !app_assoc. reflexivity.
Qed.

Lemma syncHandler_pending
    key namespace name perr (w : World Env) astro s1 err s2 :
  cache.SplitMetaNamespaceKey key = (namespace, name, perr) ->
  lister_Get namespace name (env w) = (inl astro, s1) ->
  ~ deletion_requested astro ->
  AstroFinalizer ∉ Finalizers astro ->
  astros_Update (Namespace astro) (created astro) s1 = (err, s2) ->
  syncHandler key w =
    (Returns err,
     mkWorld (trace w ++ report perr key ++
                [ListerGet namespace name;
                 Info ("Sync create astro: " +:+ Name astro +:+ nl);
                 ClientUpdate (Namespace astro) (created astro)] ++
                persist_report err)
             s2).
Proof.
  intros Hk Hl Hlive Htok Hup.
  rewrite (syncHandler_dispatch key namespace name perr w astro s1 Hk Hl).
  rewrite (spec_classify_pending astro Hlive Htok).
  unfold returning_error, bind, handling.
  rewrite (syncCreate_run astro (mkWorld _ s1) err s2 Hup). unfold ret. simpl.
  rewrite <- !app_assoc. reflexivity.
Qed.

Lemma syncHandler_deleting
    key namespace name perr (w : World Env) astro s1 fs err s2 :
  cache.SplitMetaNamespaceKey key = (namespace, name, perr) ->
  lister_Get namespace name (env w) = (inl astro, s1) ->
  deletion_requested astro ->
  remove_finalizer (Finalizers astro) = inr fs ->
  astros_Update (Namespace astro) (set_Finalizers fs astro) s1 = (err, s2) ->
  syncHandler key w =
    (Returns err,
     mkWorld (trace w ++ report perr key ++
                [ListerGet namespace name;
                 Info ("Sync delete astro: " +:+ Name astro +:+ nl);
                 ClientUpdate (Namespace astro) (set_Finalizers fs astro)] ++
                persist_report err)
             s2).
Proof.
  intros Hk Hl Hdel Hloop Hup.
  rewrite (syncHandler_dispatch key namespace name perr w astro s1 Hk Hl).
  rewrite (spec_classify_deleting astro Hdel).
  unfold returning_error, bind, handling.
  rewrite (syncDelete_removed astro (mkWorld _ s1) fs err s2 Hloop Hup). unfold ret. simpl.
  rewrite <- !app_assoc. reflexivity.
Qed.

Lemma syncHandler_deleting_panics
    key namespace name perr (w : World Env) astro s1 p :
  cache.SplitMetaNamespaceKey key = (namespace, name, perr) ->
  lister_Get namespace name (env w) = (inl astro, s1) ->
  deletion_requested astro ->
  remove_finalizer (Finalizers astro) = inl p ->
  syncHandler key w =
    (Panics p,
     mkWorld (trace w ++ report perr key ++
                [ListerGet namespace name;
                 Info ("Sync delete astro: " +:+ Name astro +:+ nl)])
             s1).
Proof.
  intros Hk Hl Hdel Hloop.
  rewrite (syncHandler_dispatch key namespace name perr w astro s1 Hk Hl).
  rewrite (spec_classify_deleting astro Hdel).
  unfold returning_error, bind, handling.
  rewrite (syncDelete_panics astro _ p Hloop). simpl.
  rewrite <- !app_assoc. reflexivity.
Qed.

Lemma count_events_app (p : Event -> bool) (l k : list Event) :
  count_events p (l ++ k) = count_events p l + count_events p k.
Proof. unfold count_events. now rewrite List.filter_app, length_app. Qed.

Lemma count_report (p : Event -> bool) perr key :
  (forall msg, p (HandleError msg) = false) ->
  count_events p (report perr key) = 0.
Proof.
  intros Hp. destruct perr; [| reflexivity].
  unfold count_events. simpl. now rewrite Hp.
Qed.

Lemma count_persist_report (p : Event -> bool) err :
  (forall msg, p (HandleError msg) = false) ->
  count_events p (persist_report err) = 0.
Proof.
  intros Hp. destruct err; [| reflexivity].
  unfold count_events. simpl. now rewrite Hp.
Qed.

Ltac returned err :=
  eexists; split; [reflexivity |]; simpl;
  rewrite !count_events_app, !count_report by reflexivity;
  try change (?a :: ?b :: ?c :: persist_report err)
        with ([a; b; c] ++ persist_report err);
  rewrite ?count_events_app, ?count_persist_report by reflexivity;
  split; [discriminate |]; split; [reflexivity |];
  split; [unfold count_events; simpl; lia |]; intros [p Hp]; discriminate.

(** All the runs of [syncHandler]: it never waits, it panics only in the
    deleting branch, it reads the store once and writes it at most
    once. *)
Lemma syncHandler_runs (key : string) (w : World Env) :
  exists evs,
    trace (snd (syncHandler key w)) = trace w ++ evs /\
    fst (syncHandler key w) <> Blocks /\
    count_events is_read evs = 1 /\
    count_events is_write evs <= 1 /\
    ((exists p, fst (syncHandler key w) = Panics p) ->
     count_events is_write evs = 0 /\
     exists namespace name perr astro s1,
       cache.SplitMetaNamespaceKey key = (namespace, name, perr) /\
       lister_Get namespace name (env w) = (inl astro, s1) /\
       deletion_requested astro).
Proof.
  destruct (cache.SplitMetaNamespaceKey key) as [[namespace name] perr] eqn:Hk.
  destruct (lister_Get namespace name (env w)) as [[astro | e] s1] eqn:Hl.
  - destruct (decide (deletion_requested astro)) as [Hdel | Hlive].
    + destruct (remove_finalizer (Finalizers astro)) as [p | fs] eqn:Hloop.
      * rewrite (syncHandler_deleting_panics key _ _ _ w astro s1 p Hk Hl Hdel Hloop).
        eexists. split; [reflexivity |]. simpl.
        rewrite !count_events_app, !count_report by reflexivity.
        split; [discriminate |]. split; [reflexivity |].
        split; [unfold count_events; simpl; lia |].
        intros _. split; [reflexivity |]. eauto 10.
      * destruct (astros_Update (Namespace astro) (set_Finalizers fs astro) s1)
          as [err s2] eqn:Hup.
        rewrite (syncHandler_deleting key _ _ _ w astro s1 fs err s2
                   Hk Hl Hdel Hloop Hup).
        returned err.
    + destruct (decide (AstroFinalizer ∈ Finalizers astro)) as [Htok | Htok].
      * rewrite (syncHandler_established key _ _ _ w astro s1 Hk Hl Hlive Htok).
        returned (@None error).
      * destruct (astros_Update (Namespace astro) (created astro) s1)
          as [err s2] eqn:Hup.
        rewrite (syncHandler_pending key _ _ _ w astro s1 err s2
                   Hk Hl Hlive Htok Hup).
        returned err.
  - destruct (IsNotFound e) eqn:Hnf.
    + rewrite (syncHandler_not_found key _ _ _ w e s1 Hk Hl Hnf).
      returned (@None error).
    + rewrite (syncHandler_read_error key _ _ _ w e s1 Hk Hl Hnf).
      returned (@None error).
Qed.

End SyncHandlerRuns.

Section SyncHandlerProperties.

Context {Env : Type} `{Collaborators Env}.


(** X7: [syncHandler] panics only in deletion handling: if it panics, the
    lister had returned an object whose deletion is requested, and
    nothing was written to the store. *)
Theorem syncHandler_panics_only_when_deleting (key : string) (w : World Env) p w' :
  syncHandler key w = (Panics p, w') ->
  exists namespace name perr astro s1 evs,
    cache.SplitMetaNamespaceKey key = (namespace, name, perr) /\
    lister_Get namespace name (env w) = (inl astro, s1) /\
    deletion_requested astro /\
    trace w' = trace w ++ evs /\
    count_events is_write evs = 0.
Proof.
  intros Hrun.
  destruct (syncHandler_runs key w) as (evs & Htr & _ & _ & _ & Hpanic).
  rewrite Hrun in Htr, Hpanic. simpl in Htr, Hpanic.
  destruct Hpanic as (Hw & namespace & name & perr & astro & s1 & Hk & Hl & Hdel);
    [eauto |].
  exists namespace, name, perr, astro, s1, evs. auto.
Qed.

(** X8: an object read without deletion request and without the token is
    sent to the store with the token appended; when the store refuses it,
    [syncHandler] reports the error and returns it as it is, and the
    worker that pulled the key calls [Done] but not [Forget], reports the
    wrapped error and ends its step with false. *)
Theorem persist_failure_reaches_the_worker
    key namespace name perr (w : World Env) s0 astro s1 e s2 :
  workqueue_Get (env w) = (Some (ItemString key, false), s0) ->
  cache.SplitMetaNamespaceKey key = (namespace, name, perr) ->
  lister_Get namespace name s0 = (inl astro, s1) ->
  ~ deletion_requested astro ->
  AstroFinalizer ∉ Finalizers astro ->
  astros_Update (Namespace astro) (created astro) s1 = (Some e, s2) ->
  processNextWorkItem w =
    (Returns false,
     mkWorld (trace w ++ [QGet] ++ report perr key ++
                [ListerGet namespace name;
                 Info ("Sync create astro: " +:+ Name astro +:+ nl);
                 ClientUpdate (Namespace astro) (created astro);
                 HandleError (Error e);
                 QDone (ItemString key);
                 HandleError ("error syncing '" +:+ key +:+ "':" +:+ Error e)])
             (workqueue_Done (ItemString key) s2)).
Proof.
  intros Hget Hk Hl Hlive Htok Hup.
  pose proof (syncHandler_pending key namespace name perr
                (mkWorld (trace w ++ [QGet]) s0) astro s1 (Some e) s2
                Hk Hl Hlive Htok Hup) as Hsync.
  rewrite (processNextWorkItem_string w key s0 (Some e) _ Hget Hsync).
  simpl. rewrite <- !app_assoc. reflexivity.
Qed.

End SyncHandlerProperties.

(** ** The steps of a worker *)

Section WorkerSteps.

Context {Env : Type} `{Collaborators Env}.

Lemma processNextWorkItem_blocks (w : World Env) s0 :
  workqueue_Get (env w) = (None, s0) ->
  processNextWorkItem w = (Blocks, mkWorld (trace w ++ [QGet]) s0).
Proof.
  intros Hget. unfold processNextWorkItem, bind, blocking_call.
  now rewrite Hget.
Qed.

Lemma processNextWorkItem_shutdown (w : World Env) item s0 :
  workqueue_Get (env w) = (Some (item, true), s0) ->
  processNextWorkItem w = (Returns false, mkWorld (trace w ++ [QGet]) s0).
Proof.
  intros Hget. unfold processNextWorkItem, bind, blocking_call.
  now rewrite Hget.
Qed.

Lemma processNextWorkItem_other (w : World Env) gosyntax s0 :
  workqueue_Get (env w) = (Some (ItemOther gosyntax, false), s0) ->
  processNextWorkItem w =
    (Returns true,
     mkWorld (trace w ++
                [QGet; QForget (ItemOther gosyntax);
                 HandleError ("expected string in workqueue but got " +:+ gosyntax);
                 QDone (ItemOther gosyntax)])
             (workqueue_Done (ItemOther gosyntax)
                (workqueue_Forget (ItemOther gosyntax) s0))).
Proof.
  intros Hget.
  unfold processNextWorkItem, bind at 1, blocking_call. rewrite Hget.
  unfold defer, bind, call_, emit, ret. simpl.
  rewrite <- !app_assoc. reflexivity.
Qed.

Lemma quiet_counts (p : Event -> bool) (evs : list Event) :
  (forall e, p e = true -> is_queue_call e = true) ->
  Forall (fun e => is_queue_call e = false) evs ->
  List.filter p evs = [].
Proof.
  intros Hp Hq. induction Hq as [| e evs He _ IH]; [reflexivity |].
  simpl. destruct (p e) eqn:Hpe; [| assumption].
  apply Hp in Hpe. congruence.
Qed.

Lemma filter_worker_calls_quiet (evs : list Event) :
  Forall (fun e => is_queue_call e = false) evs ->
  Forall (fun e => is_queue_call e = true -> is_worker_call e = true) evs.
Proof.
  intros Hq. eapply Forall_impl; [exact Hq |].
  intros e He Hcall. congruence.
Qed.

Ltac worker_calls :=
  repeat (constructor; [simpl; intros; first [reflexivity | discriminate] |]);
  constructor.

Ltac after_sync evs :=
  rewrite !List.filter_app,
    (quiet_counts is_Get evs), (quiet_counts is_Done evs)
    by (assumption || (intros [] ?; (discriminate || reflexivity)));
  split;
  [ apply Forall_app; split;
    [now apply filter_worker_calls_quiet | worker_calls]
  | split; [reflexivity | split; [reflexivity | discriminate]] ].

(** What one step of a worker does to the queue, whatever it pulled: after
    its [Get] it calls only [Forget] and [Done], [Done] at most once, and
    [Done] exactly once when [Get] handed out an item. *)
Lemma processNextWorkItem_calls (w : World Env) :
  exists evs,
    trace (snd (processNextWorkItem w)) = trace w ++ QGet :: evs /\
    Forall (fun e => is_queue_call e = true -> is_worker_call e = true) evs /\
    List.filter is_Get evs = [] /\
    match fst (workqueue_Get (env w)) with
    | Some (item, false) =>
        List.filter is_Done evs = [QDone item] /\
        fst (processNextWorkItem w) <> Blocks
    | Some (_, true) => evs = [] /\ fst (processNextWorkItem w) = Returns false
    | None => evs = [] /\ fst (processNextWorkItem w) = Blocks
    end.
Proof.
  destruct (workqueue_Get (env w)) as [[[item [|]] |] s0] eqn:Hget; simpl.
  - rewrite (processNextWorkItem_shutdown w item s0 Hget).
    exists []. repeat split; constructor.
  - destruct item as [key | gosyntax].
    + pose proof (syncHandler_quiet key (mkWorld (trace w ++ [QGet]) s0)) as Hq.
      pose proof (syncHandler_runs key (mkWorld (trace w ++ [QGet]) s0))
        as (_ & _ & Hnb & _).
      destruct (syncHandler key (mkWorld (trace w ++ [QGet]) s0))
        as [[r | p |] w2] eqn:Hsync; [| | now destruct Hnb].
      * destruct Hq as (evs & Htr & Hquiet). simpl in Htr.
        rewrite (processNextWorkItem_string w key s0 r w2 Hget Hsync).
        destruct r as [e |]; simpl; rewrite Htr, <- !app_assoc; simpl;
          eexists; (split; [reflexivity |]); after_sync evs.
      * destruct Hq as (evs & Htr & Hquiet). simpl in Htr.
        rewrite (processNextWorkItem_panic w key s0 p w2 Hget Hsync).
        simpl. rewrite Htr, <- !app_assoc. simpl.
        eexists. split; [reflexivity |]. after_sync evs.
    + rewrite (processNextWorkItem_other w gosyntax s0 Hget). simpl.
      eexists. split; [reflexivity |].
      split; [worker_calls |].
      split; [reflexivity | split; [reflexivity | discriminate]].
  - rewrite (processNextWorkItem_blocks w s0 Hget).
    exists []. repeat split; constructor.
Qed.

End WorkerSteps.

Section WorkerProperties.

Context {Env : Type} `{Collaborators Env}.

(** X9: for every item that [Get] hands out (a key or not, its sync
    returning nil, returning an error or panicking) the step of the worker
    calls [Done] exactly once, for that item, and calls [Get] no second
    time; and the step comes to an end. *)
Theorem Done_exactly_once_per_item (w : World Env) item s0 :
  workqueue_Get (env w) = (Some (item, false), s0) ->
  exists evs,
    trace (snd (processNextWorkItem w)) = trace w ++ QGet :: evs /\
    List.filter is_Done evs = [QDone item] /\
    List.filter is_Get evs = [] /\
    fst (processNextWorkItem w) <> Blocks.
Proof.
  intros Hget.
  destruct (processNextWorkItem_calls w) as (evs & Htr & _ & Hgets & Hcase).
  rewrite Hget in Hcase. simpl in Hcase. destruct Hcase as [Hdone Hnb].
  exists evs. auto.
Qed.

(** X10: an item that is not a string is dropped on the spot: the worker
    calls [Forget] for it, reports it, calls [Done], and its step returns
    true, so the loop goes on; the store is neither read nor written. *)
Theorem non_string_item_is_forgotten (w : World Env) gosyntax s0 :
  workqueue_Get (env w) = (Some (ItemOther gosyntax, false), s0) ->
  exists evs,
    processNextWorkItem w =
      (Returns true,
       mkWorld (trace w ++ evs)
               (workqueue_Done (ItemOther gosyntax)
                  (workqueue_Forget (ItemOther gosyntax) s0))) /\
    evs = [QGet; QForget (ItemOther gosyntax);
           HandleError ("expected string in workqueue but got " +:+ gosyntax);
           QDone (ItemOther gosyntax)] /\
    count_events is_read evs = 0 /\
    count_events is_write evs = 0.
Proof.
  intros Hget. eexists. split; [now apply processNextWorkItem_other |].
  repeat split.
Qed.

(** X11: however long the loop of a worker runs, its calls on the queue
    are [Get], [Forget] and [Done] only: a worker never puts a key on the
    queue and never shuts the queue down; and it never calls [Done] more
    often than [Get]. *)
Theorem runWorker_only_pulls (fuel : nat) (w : World Env) :
  exists evs,
    trace (snd (runWorker fuel w)) = trace w ++ evs /\
    Forall (fun e => is_queue_call e = true -> is_worker_call e = true) evs /\
    count_events is_Done evs <= count_events is_Get evs /\
    count_events is_Get evs <= fuel.
Proof.
  revert w. induction fuel as [| fuel IH]; intros w.
  - exists []. simpl. rewrite app_nil_r.
    repeat split; [constructor | reflexivity | reflexivity].
  - destruct (processNextWorkItem_calls w) as (evs & Htr & Hcalls & Hgets & Hcase).
    assert (Hdone : count_events is_Done evs <= 1).
    { unfold count_events.
      destruct (fst (workqueue_Get (env w))) as [[item [|]] |].
      - destruct Hcase as [-> _]. simpl. lia.
      - destruct Hcase as [-> _]. simpl. lia.
      - destruct Hcase as [-> _]. simpl. lia. }
    assert (Hstep : forall evs',
              Forall (fun e => is_queue_call e = true -> is_worker_call e = true) evs' ->
              count_events is_Done evs' <= count_events is_Get evs' ->
              count_events is_Get evs' <= fuel ->
              Forall (fun e => is_queue_call e = true -> is_worker_call e = true)
                     (QGet :: evs ++ evs') /\
              count_events is_Done (QGet :: evs ++ evs') <=
                count_events is_Get (QGet :: evs ++ evs') /\
              count_events is_Get (QGet :: evs ++ evs') <= S fuel).
    { intros evs' Hc' Hd' Hg'.
      change (QGet :: evs ++ evs') with ([QGet] ++ evs ++ evs').
      rewrite !count_events_app.
      assert (Hg0 : count_events is_Get evs = 0)
        by (unfold count_events; now rewrite Hgets).
      rewrite Hg0.
      change (count_events is_Done [QGet]) with 0.
      change (count_events is_Get [QGet]) with 1.
      repeat split; [| lia | lia].
      apply Forall_app. split; [repeat constructor |].
      apply Forall_app. split; assumption. }
    simpl. unfold bind.
    destruct (processNextWorkItem w) as [[[|] | p |] w1] eqn:Hrun;
      simpl in Htr.
    + destruct (IH w1) as (evs' & Htr' & Hc' & Hd' & Hg').
      exists (QGet :: evs ++ evs'). split.
      * rewrite Htr', Htr. rewrite <- app_assoc. reflexivity.
      * now apply Hstep.
    + exists (QGet :: evs ++ []). split.
      * simpl. rewrite app_nil_r. exact Htr.
      * apply Hstep; [constructor | reflexivity | unfold count_events; simpl; lia].
    + exists (QGet :: evs ++ []). split.
      * simpl. rewrite app_nil_r. exact Htr.
      * apply Hstep; [constructor | reflexivity | unfold count_events; simpl; lia].
    + exists (QGet :: evs ++ []). split.
      * simpl. rewrite app_nil_r. exact Htr.
      * apply Hstep; [constructor | reflexivity | unfold count_events; simpl; lia].
Qed.

(** X12: when [Get] reports that the queue is shutting down, the loop of
    the worker ends at once: nothing but that [Get] is called, whatever
    item came with the report. *)
Theorem runWorker_ends_on_shutdown (fuel : nat) (w : World Env) item s0 :
  workqueue_Get (env w) = (Some (item, true), s0) ->
  runWorker (S fuel) w = (Returns tt, mkWorld (trace w ++ [QGet]) s0).
Proof.
  intros Hget. apply runWorker_stops.
  now apply (processNextWorkItem_shutdown w item).
Qed.

(** X13: a failed sync ends the loop of the worker: after the key whose
    sync returned an error no further key is pulled, however many rounds
    were left. *)
Theorem runWorker_ends_on_failed_sync (fuel : nat) (w : World Env) key s0 e w2 :
  workqueue_Get (env w) = (Some (ItemString key, false), s0) ->
  syncHandler key (mkWorld (trace w ++ [QGet]) s0) = (Returns (Some e), w2) ->
  runWorker (S fuel) w =
    (Returns tt,
     mkWorld (trace w2 ++
                [QDone (ItemString key);
                 HandleError ("error syncing '" +:+ key +:+ "':" +:+ Error e)])
             (workqueue_Done (ItemString key) (env w2))).
Proof.
  intros Hget Hsync. apply runWorker_stops.
  exact (processNextWorkItem_string w key s0 (Some e) w2 Hget Hsync).
Qed.

End WorkerProperties.

(** ** Keys, from the watch handlers to [syncHandler] *)

Lemma split_slash_no_slash (s : string) :
  has_slash s = false -> cache.split_slash s = [s].
Proof.
  induction s as [| c s IH]; intros Hs; [reflexivity |].
  simpl in *. apply orb_false_iff in Hs as [Hc Hs].
  rewrite Hc, (IH Hs). reflexivity.
Qed.

Lemma split_slash_prefix (s1 s2 : string) :
  has_slash s1 = false ->
  cache.split_slash (s1 +:+ "/" +:+ s2) = s1 :: cache.split_slash s2.
Proof.
  induction s1 as [| c s1 IH]; intros Hs; [reflexivity |].
  simpl in *. apply orb_false_iff in Hs as [Hc Hs].
  rewrite Hc, (IH Hs). reflexivity.
Qed.

(** The key of an object whose namespace and name hold no slash is
    parsed back into that namespace and name. *)
Lemma SplitMetaNamespaceKey_spec_key (a : Astro) :
  has_slash (Namespace a) = false ->
  has_slash (Name a) = false ->
  cache.SplitMetaNamespaceKey (spec_key a) = (Namespace a, Name a, None).
Proof.
  intros Hns Hname. unfold cache.SplitMetaNamespaceKey, spec_key.
  destruct (Namespace a) as [| c ns] eqn:Heq.
  - now rewrite split_slash_no_slash.
  - rewrite split_slash_prefix by assumption.
    now rewrite split_slash_no_slash.
Qed.

Section Keys.

Context {Env : Type} `{Collaborators Env}.

Lemma syncHandler_starts_with_read key namespace name perr (w : World Env) :
  cache.SplitMetaNamespaceKey key = (namespace, name, perr) ->
  exists evs,
    trace (snd (syncHandler key w)) =
      trace w ++ report perr key ++ ListerGet namespace name :: evs.
Proof.
  intros Hk.
  destruct (lister_Get namespace name (env w)) as [[astro | e] s1] eqn:Hl.
  - rewrite (syncHandler_dispatch key namespace name perr w astro s1 Hk Hl).
    rewrite returning_error_world.
    assert (Hq : quiet_extension
                   (mkWorld (trace w ++ report perr key ++ [ListerGet namespace name]) s1)
                   (snd (handling (spec_classify astro) astro
                           (mkWorld (trace w ++ report perr key ++
                                       [ListerGet namespace name]) s1)))).
    { destruct (spec_classify astro); simpl;
        [apply syncDelete_quiet | apply syncUpdate_quiet | apply syncCreate_quiet]. }
    destruct Hq as (evs & Htr & _). exists evs. rewrite Htr. simpl.
    rewrite <- !app_assoc. reflexivity.
  - destruct (IsNotFound e) eqn:Hnf.
    + rewrite (syncHandler_not_found key _ _ _ w e s1 Hk Hl Hnf).
      exists []. reflexivity.
    + rewrite (syncHandler_read_error key _ _ _ w e s1 Hk Hl Hnf).
      eexists. reflexivity.
Qed.

(** X14: the key that [addAstro] puts on the queue for an object leads
    [syncHandler] back to that object: when neither the namespace nor the
    name of the object holds a slash, [addAstro] enqueues one key, and
    [syncHandler] on that key reports nothing about the key and asks the
    lister for exactly the namespace and name of the object (the empty
    namespace included). *)
Theorem enqueued_key_is_read_back (a : Astro) (w w' : World Env) :
  has_slash (Namespace a) = false ->
  has_slash (Name a) = false ->
  exists key evs,
    addAstro (ObjAstro a) w =
      (Returns tt,
       mkWorld (trace w ++ [Info "Enqueue the astro crd for adding";
                            QAddRateLimited (ItemString key)])
               (workqueue_AddRateLimited (ItemString key) (env w))) /\
    trace (snd (syncHandler key w')) =
      trace w' ++ ListerGet (Namespace a) (Name a) :: evs.
Proof.
  intros Hns Hname.
  destruct (syncHandler_starts_with_read (spec_key a) _ _ _ w'
              (SplitMetaNamespaceKey_spec_key a Hns Hname)) as [evs Hevs].
  exists (spec_key a), evs. split; [| exact Hevs].
  unfold addAstro. rewrite MetaNamespaceKeyFunc_Astro.
  unfold bind, emit, call_. simpl. rewrite <- app_assoc. reflexivity.
Qed.

(** X15: a delete notification may carry the tombstone
    [DeletedFinalStateUnknown] instead of the object.  [deleteAstro]
    enqueues the key kept in the tombstone; [addAstro], given the same
    value, reports an error and enqueues nothing. *)
Theorem tombstone_is_enqueued_by_deleteAstro_only (key : string) (w : World Env) :
  deleteAstro (ObjDeletedFinalStateUnknown key) w =
    (Returns tt,
     mkWorld (trace w ++ [Info "Enqueue the astro crd for deleting";
                          QAddRateLimited (ItemString key)])
             (workqueue_AddRateLimited (ItemString key) (env w))) /\
  exists msg,
    addAstro (ObjDeletedFinalStateUnknown key) w =
      (Returns tt, mkWorld (trace w ++ [HandleError msg]) (env w)).
Proof.
  split.
  - unfold deleteAstro, bind, emit, call_. simpl.
    rewrite <- app_assoc. reflexivity.
  - eexists. reflexivity.
Qed.

(** X16: [updateAstro] asserts the type of both its arguments without a
    check: when the old or the new value is not an Astro it panics, and
    nothing has been put on the queue. *)
Theorem updateAstro_panics_on_other_types (old new : Obj) (w : World Env) :
  (forall a, old <> ObjAstro a) \/ (forall a, new <> ObjAstro a) ->
  exists p, updateAstro old new w = (Panics p, w).
Proof.
  intros Hbad. unfold updateAstro, assert_Astro, bind, panic, ret.
  destruct old as [o | k | k | g]; try (eexists; reflexivity).
  destruct new as [n | k | k | g]; try (eexists; reflexivity).
  destruct Hbad as [Hbad | Hbad]; [destruct (Hbad o) | destruct (Hbad n)];
    reflexivity.
Qed.

Lemma on_notification_run (n : Notification) (w : World Env) :
  from_Astro_informer n ->
  exists evs,
    on_notification n w =
      (Returns tt,
       mkWorld (trace w ++ evs)
               (match enqueued_key n with
                | Some key => workqueue_AddRateLimited (ItemString key) (env w)
                | None => env w
                end)) /\
    queue_calls evs =
      match enqueued_key n with
      | Some key => [QAddRateLimited (ItemString key)]
      | None => []
      end.
Proof.
  intros Hn. destruct n as [obj | old new | obj]; simpl in *.
  - destruct obj as [a | | |]; try contradiction.
    unfold addAstro. rewrite MetaNamespaceKeyFunc_Astro.
    unfold bind, emit, call_. simpl. rewrite <- app_assoc.
    eexists. split; reflexivity.
  - destruct old as [o | | |]; try contradiction.
    destruct new as [a | | |]; try contradiction.
    unfold updateAstro, assert_Astro. rewrite MetaNamespaceKeyFunc_Astro.
    unfold bind, ret, emit, call_. simpl.
    destruct (String.eqb (ResourceVersion o) (ResourceVersion a)).
    + exists []. rewrite app_nil_r. destruct w. split; reflexivity.
    + simpl. rewrite <- app_assoc. eexists. split; reflexivity.
  - destruct obj as [a | key | |]; try contradiction.
    + unfold deleteAstro, cache.DeletionHandlingMetaNamespaceKeyFunc.
      rewrite MetaNamespaceKeyFunc_Astro.
      unfold bind, emit, call_. simpl. rewrite <- app_assoc.
      eexists. split; reflexivity.
    + unfold deleteAstro, bind, emit, call_. simpl. rewrite <- app_assoc.
      eexists. split; reflexivity.
Qed.

Lemma queue_calls_app (l k : list Event) :
  queue_calls (l ++ k) = queue_calls l ++ queue_calls k.
Proof. unfold queue_calls. apply List.filter_app. Qed.

(** X17: the handlers registered with the informer turn a run of
    notifications about Astros into a run of [AddRateLimited] calls, in
    the order of the notifications: one key for every add and delete, one
    key for every update that changes the resource version, none for an
    update that does not; no other call is made on the queue, and no
    handler panics. *)
Theorem deliver_enqueues_in_order (ns : list Notification) (w : World Env) :
  Forall from_Astro_informer ns ->
  exists evs,
    deliver ns w =
      (Returns tt,
       mkWorld (trace w ++ evs)
               (foldl (fun s key => workqueue_AddRateLimited (ItemString key) s)
                      (env w) (omap enqueued_key ns))) /\
    queue_calls evs =
      map (fun key => QAddRateLimited (ItemString key)) (omap enqueued_key ns).
Proof.
  intros Hns. revert w.
  induction Hns as [| n ns Hn _ IH]; intros w.
  - exists []. simpl. unfold ret. rewrite app_nil_r. destruct w.
    split; reflexivity.
  - destruct (on_notification_run n w Hn) as (evs1 & Hrun1 & Hq1).
    destruct (IH (mkWorld (trace w ++ evs1)
                    (match enqueued_key n with
                     | Some key => workqueue_AddRateLimited (ItemString key) (env w)
                     | None => env w
                     end))) as (evs2 & Hrun2 & Hq2).
    exists (evs1 ++ evs2). split.
    + simpl. unfold bind. rewrite Hrun1, Hrun2. simpl.
      rewrite <- app_assoc.
      destruct (enqueued_key n); reflexivity.
    + rewrite queue_calls_app, Hq1, Hq2.
      simpl. destruct (enqueued_key n); reflexivity.
Qed.

End Keys.

(** ** More on [Run] and on the first sync *)

Section MoreRuns.

Context {Env : Type} `{Collaborators Env}.

(** X18: with a worker count of zero or less [Run] starts no worker at
    all, and still behaves as a running controller: after the cache sync
    it waits for the stop signal and then returns nil. *)
Theorem Run_without_workers (thread : Z) (w : World Env) s1 :
  (thread <= 0)%Z ->
  cache_WaitForCacheSync (env w) = (Some true, s1) ->
  stopCh_fires s1 = true ->
  Run thread w =
    (Returns None,
     mkWorld (trace w ++
                [Info "Starting Astro control loop";
                 Info "Waiting for informer caches to sync";
                 WaitForCacheSync;
                 Info "Starting workers";
                 Info "Started workers";
                 RecvStop;
                 Info "Shutting down workers";
                 QShuttingDown])
             (snd (workqueue_ShuttingDown s1))).
Proof.
  intros Hthread Hsync Hstop.
  rewrite (Run_cases thread w (Some true) s1 Hsync), Hstop.
  replace (Z.to_nat thread) with 0 by lia. reflexivity.
Qed.

(** X19: the first sync of an object establishes it.  For an object read
    without deletion request and without the token, the object that
    [syncHandler] sends to the store holds the token exactly once, holds
    the other finalizers as before and in their order, and is one that the
    next sync hands to update handling; the error of the store, if any, is
    what [syncHandler] returns. *)
Theorem first_sync_establishes
    key namespace name perr (w : World Env) astro s1 :
  cache.SplitMetaNamespaceKey key = (namespace, name, perr) ->
  lister_Get namespace name (env w) = (inl astro, s1) ->
  ~ deletion_requested astro ->
  AstroFinalizer ∉ Finalizers astro ->
  let (err, s2) := astros_Update (Namespace astro) (created astro) s1 in
  syncHandler key w =
    (Returns err,
     mkWorld (trace w ++ report perr key ++
                [ListerGet namespace name;
                 Info ("Sync create astro: " +:+ Name astro +:+ nl);
                 ClientUpdate (Namespace astro) (created astro)] ++
                persist_report err)
             s2) /\
  occurrences (Finalizers (created astro)) = 1 /\
  others (Finalizers (created astro)) = Finalizers astro /\
  spec_classify (created astro) = Established.
Proof.
  intros Hk Hl Hlive Htok.
  destruct (astros_Update (Namespace astro) (created astro) s1)
    as [err s2] eqn:Hup.
  split;
    [exact (syncHandler_pending key namespace name perr w astro s1 err s2
              Hk Hl Hlive Htok Hup) |].
  split; [| split].
  - rewrite occurrences_created.
    apply occurrences_absent in Htok. now rewrite Htok.
  - unfold created. simpl. rewrite others_app, others_absent by assumption.
    change (others [AstroFinalizer]) with (@nil string). apply app_nil_r.
  - apply spec_classify_established; [exact Hlive |].
    unfold created. simpl. apply elem_of_app. right. apply list_elem_of_here.
Qed.

(** X20: a failure of the read other than not-found stops the sync: no
    handler runs and nothing is written; [syncHandler] reports the
    namespace and name it asked for and returns the error of the lister
    as it is. *)
Theorem read_failure_is_returned
    key namespace name perr (w : World Env) e s1 :
  cache.SplitMetaNamespaceKey key = (namespace, name, perr) ->
  lister_Get namespace name (env w) = (inr e, s1) ->
  IsNotFound e = false ->
  exists evs,
    syncHandler key w = (Returns (Some e), mkWorld (trace w ++ evs) s1) /\
    evs = report perr key ++
          [ListerGet namespace name;
           HandleError ("failed to get astro by: " +:+ namespace +:+ "/" +:+ name)] /\
    count_events is_write evs = 0.
Proof.
  intros Hk Hl Hnf. eexists. split; [| split; [reflexivity |]].
  - exact (syncHandler_read_error key namespace name perr w e s1 Hk Hl Hnf).
  - rewrite count_events_app, count_report by reflexivity. reflexivity.
Qed.

End MoreRuns.

(** ** The further properties on the in-memory cluster *)

Lemma syncDelete_persists_the_other_finalizers_witness :
  (AstroFinalizer ∉ ["example.com/hold"; "kubernetes.io/pvc-protection"]) /\
  ["example.com/hold"; "kubernetes.io/pvc-protection"] ≡ₚ
    others (Finalizers held_a).
Proof.
  destruct (syncDelete_persists_the_other_finalizers held_a
              (start (cluster_with [] [held_a]))
              (set_Finalizers ["example.com/hold"; "kubernetes.io/pvc-protection"]
                              held_a)
              None
              (snd (syncDelete held_a (start (cluster_with [] [held_a])))))
    as (Hfree & Hperm & _); [reflexivity |].
  split; [exact Hfree | exact Hperm].
Defined.

Lemma syncDelete_moves_the_last_finalizer_witness :
  syncDelete held_a (start (cluster_with [] [held_a])) =
    (Returns (set_Finalizers ["example.com/hold"; "kubernetes.io/pvc-protection"]
                             held_a, None),
     mkWorld [Info ("Sync delete astro: " +:+ "a" +:+ nl);
              ClientUpdate "ns"
                (set_Finalizers ["example.com/hold"; "kubernetes.io/pvc-protection"]
                                held_a)]
             (cluster_with []
                [set_Finalizers ["example.com/hold"; "kubernetes.io/pvc-protection"]
                                held_a])).
Proof.
  assert (H1 : AstroFinalizer ∉ @nil string) by apply not_elem_of_nil.
  assert (H2 : AstroFinalizer ∉ ["kubernetes.io/pvc-protection"]).
  { intros Hin. apply list_elem_of_singleton in Hin. discriminate. }
  assert (Hy : "example.com/hold" <> AstroFinalizer) by discriminate.
  exact (syncDelete_moves_the_last_finalizer held_a
           (start (cluster_with [] [held_a]))
           [] ["kubernetes.io/pvc-protection"] "example.com/hold"
           eq_refl H1 H2 Hy).
Defined.

Lemma syncDelete_undoes_syncCreate_witness :
  syncDelete (created foreign_a) (start (cluster_with [] [foreign_a])) =
    (Returns (foreign_a, None),
     mkWorld [Info ("Sync delete astro: " +:+ "a" +:+ nl);
              ClientUpdate "ns" foreign_a]
             (cluster_with [] [foreign_a])).
Proof.
  assert (Hnot : AstroFinalizer ∉ Finalizers foreign_a).
  { intros Hin. apply list_elem_of_singleton in Hin. discriminate. }
  exact (syncDelete_undoes_syncCreate foreign_a
           (start (cluster_with [] [foreign_a])) Hnot).
Defined.


Lemma syncDelete_is_safe_on_single_token_witness :
  let w := start (cluster_with [] [held_a]) in
  exists fs,
    (AstroFinalizer ∉ fs) /\
    syncDelete held_a w =
      (let (err, s2) :=
         astros_Update (Namespace held_a) (set_Finalizers fs held_a) (env w) in
       (Returns (set_Finalizers fs held_a, err),
        mkWorld (trace w ++
                   [Info ("Sync delete astro: " +:+ Name held_a +:+ nl);
                    ClientUpdate (Namespace held_a) (set_Finalizers fs held_a)] ++
                   persist_report err)
                s2)).
Proof.
  intros w. apply (syncDelete_is_safe_on_single_token held_a w).
  vm_compute. lia.
Defined.

Lemma syncHandler_panics_only_when_deleting_witness :
  exists namespace name perr astro s1 evs,
    cache.SplitMetaNamespaceKey "ns/a" = (namespace, name, perr) /\
    lister_Get namespace name (cluster_with [] [doubled_a]) = (inl astro, s1) /\
    deletion_requested astro /\
    [ListerGet "ns" "a"; Info ("Sync delete astro: " +:+ "a" +:+ nl)] = [] ++ evs /\
    count_events is_write evs = 0.
Proof.
  apply (syncHandler_panics_only_when_deleting "ns/a"
           (start (cluster_with [] [doubled_a]))
           (IndexOutOfRange 1 1)
           (mkWorld [ListerGet "ns" "a"; Info ("Sync delete astro: " +:+ "a" +:+ nl)]
                    (cluster_with [] [doubled_a]))).
  reflexivity.
Defined.

Lemma persist_failure_reaches_the_worker_witness :
  let c := mkCluster [ItemString "ns/a"] false [fresh_a] None
                     (Some write_failure) (Some true) true in
  let c' := mkCluster [] false [fresh_a] None
                      (Some write_failure) (Some true) true in
  processNextWorkItem (start c) =
    (Returns false,
     mkWorld [QGet;
              ListerGet "ns" "a";
              Info ("Sync create astro: " +:+ "a" +:+ nl);
              ClientUpdate "ns" (created fresh_a);
              HandleError (Error write_failure);
              QDone (ItemString "ns/a");
              HandleError ("error syncing '" +:+ "ns/a" +:+ "':" +:+
                           Error write_failure)]
             c').
Proof.
  intros c c'.
  assert (Hlive : ~ deletion_requested fresh_a)
    by (unfold deletion_requested; simpl; discriminate).
  pose proof (persist_failure_reaches_the_worker "ns/a" "ns" "a" None
           (start c) c' fresh_a c' write_failure c') as Hw.
  exact (Hw ltac:(reflexivity) ltac:(reflexivity) ltac:(reflexivity) Hlive (not_elem_of_nil _) ltac:(reflexivity)).
Defined.

Lemma Done_exactly_once_per_item_witness :
  let w := start (cluster_with [ItemString "ns/a"] [doubled_a]) in
  exists evs,
    trace (snd (processNextWorkItem w)) = trace w ++ QGet :: evs /\
    List.filter is_Done evs = [QDone (ItemString "ns/a")] /\
    List.filter is_Get evs = [] /\
    fst (processNextWorkItem w) <> Blocks.
Proof.
  intros w.
  pose proof (Done_exactly_once_per_item w (ItemString "ns/a")
           (cluster_with [] [doubled_a])) as Hw.
  exact (Hw ltac:(reflexivity)).
Defined.

Lemma non_string_item_is_forgotten_witness :
  exists evs,
    processNextWorkItem (start (cluster_with [ItemOther "42"] [])) =
      (Returns true, mkWorld ([] ++ evs) (cluster_with [] [])) /\
    evs = [QGet; QForget (ItemOther "42");
           HandleError ("expected string in workqueue but got " +:+ "42");
           QDone (ItemOther "42")] /\
    count_events is_read evs = 0 /\
    count_events is_write evs = 0.
Proof.
  pose proof (non_string_item_is_forgotten
           (start (cluster_with [ItemOther "42"] [])) "42" (cluster_with [] [])) as Hw.
  exact (Hw ltac:(reflexivity)).
Defined.

Lemma runWorker_ends_on_shutdown_witness :
  let c := mkCluster [] true [] None None (Some true) true in
  runWorker 5 (start c) = (Returns tt, mkWorld [QGet] c).
Proof.
  intros c.
  pose proof (runWorker_ends_on_shutdown 4 (start c) (ItemOther "<nil>") c) as Hw.
  exact (Hw ltac:(reflexivity)).
Defined.

Lemma runWorker_ends_on_failed_sync_witness :
  let c := mkCluster [ItemString "ns/a"; ItemString "ns/b"] false [owned_a]
                     (Some read_failure) None (Some true) true in
  let c' := mkCluster [ItemString "ns/b"] false [owned_a]
                      (Some read_failure) None (Some true) true in
  runWorker 5 (start c) =
    (Returns tt,
     mkWorld [QGet; ListerGet "ns" "a";
              HandleError "failed to get astro by: ns/a";
              QDone (ItemString "ns/a");
              HandleError ("error syncing '" +:+ "ns/a" +:+ "':" +:+
                           Error read_failure)]
             c').
Proof.
  intros c c'.
  pose proof (runWorker_ends_on_failed_sync 4 (start c) "ns/a" c' read_failure
           (mkWorld [QGet; ListerGet "ns" "a";
                     HandleError "failed to get astro by: ns/a"] c')) as Hw.
  exact (Hw ltac:(reflexivity) ltac:(reflexivity)).
Defined.

Lemma enqueued_key_is_read_back_witness :
  exists key evs,
    addAstro (ObjAstro fresh_a) (start (cluster_with [] [fresh_a])) =
      (Returns tt,
       mkWorld ([] ++ [Info "Enqueue the astro crd for adding";
                       QAddRateLimited (ItemString key)])
               (cluster_with [ItemString key] [fresh_a])) /\
    trace (snd (syncHandler key (start (cluster_with [] [fresh_a])))) =
      [] ++ ListerGet "ns" "a" :: evs.
Proof.
  pose proof (enqueued_key_is_read_back fresh_a
           (start (cluster_with [] [fresh_a]))
           (start (cluster_with [] [fresh_a]))) as Hw.
  exact (Hw ltac:(reflexivity) ltac:(reflexivity)).
Defined.

Lemma updateAstro_panics_on_other_types_witness :
  exists p,
    updateAstro (ObjDeletedFinalStateUnknown "ns/a") (ObjAstro owned_a)
                (start (cluster_with [] [owned_a])) =
      (Panics p, start (cluster_with [] [owned_a])).
Proof.
  apply updateAstro_panics_on_other_types. left. discriminate.
Defined.

Lemma deliver_enqueues_in_order_witness :
  let ns := [Added (ObjAstro fresh_a);
             Updated (ObjAstro fresh_a) (ObjAstro fresh_a);
             Updated (ObjAstro fresh_a) (ObjAstro owned_a);
             Deleted (ObjDeletedFinalStateUnknown "ns/gone")] in
  exists evs,
    deliver ns (start (cluster_with [] [])) =
      (Returns tt,
       mkWorld ([] ++ evs)
               (cluster_with [ItemString "ns/a"; ItemString "ns/a";
                              ItemString "ns/gone"] [])) /\
    queue_calls evs =
      [QAddRateLimited (ItemString "ns/a"); QAddRateLimited (ItemString "ns/a");
       QAddRateLimited (ItemString "ns/gone")].
Proof.
  intros ns.
  assert (Hns : Forall from_Astro_informer ns) by (repeat constructor).
  pose proof (deliver_enqueues_in_order ns (start (cluster_with [] []))) as Hw.
  exact (Hw Hns).
Defined.

Lemma Run_without_workers_witness :
  Run (-3) (start (cluster_with [] [])) =
    (Returns None,
     mkWorld [Info "Starting Astro control loop";
              Info "Waiting for informer caches to sync";
              WaitForCacheSync;
              Info "Starting workers";
              Info "Started workers";
              RecvStop;
              Info "Shutting down workers";
              QShuttingDown]
             (cluster_with [] [])).
Proof.
  pose proof (Run_without_workers (-3) (start (cluster_with [] []))
           (cluster_with [] [])) as Hw.
  exact (Hw ltac:(lia) ltac:(reflexivity) ltac:(reflexivity)).
Defined.

Lemma first_sync_establishes_witness :
  syncHandler "ns/a" (start (cluster_with [] [fresh_a])) =
    (Returns None,
     mkWorld [ListerGet "ns" "a";
              Info ("Sync create astro: " +:+ "a" +:+ nl);
              ClientUpdate "ns" (created fresh_a)]
             (cluster_with [] [created fresh_a])) /\
  occurrences (Finalizers (created fresh_a)) = 1 /\
  others (Finalizers (created fresh_a)) = Finalizers fresh_a /\
  spec_classify (created fresh_a) = Established.
Proof.
  assert (Hlive : ~ deletion_requested fresh_a)
    by (unfold deletion_requested; simpl; discriminate).
  pose proof (first_sync_establishes "ns/a" "ns" "a" None
           (start (cluster_with [] [fresh_a])) fresh_a
           (cluster_with [] [fresh_a])) as Hw.
  exact (Hw ltac:(reflexivity) ltac:(reflexivity) Hlive (not_elem_of_nil _)).
Defined.

Lemma read_failure_is_returned_witness :
  let c := mkCluster [] false [owned_a] (Some read_failure) None (Some true) true in
  exists evs,
    syncHandler "ns/a" (start c) =
      (Returns (Some read_failure), mkWorld ([] ++ evs) c) /\
    evs = [] ++ [ListerGet "ns" "a"; HandleError ("failed to get astro by: " +:+ "ns" +:+ "/" +:+ "a")] /\
    count_events is_write evs = 0.
Proof.
  intros c.
  pose proof (read_failure_is_returned "ns/a" "ns" "a" None (start c) read_failure c) as Hw.
  exact (Hw ltac:(reflexivity) ltac:(reflexivity) ltac:(reflexivity)).
Defined.
